(** * TrueRestore signature player: stroke reveal renderer and playback controller

    A shallow embedding of the three player sources of the repository:

    - [Segmented]: the first program of [src/signature-player.js]
      (multi-segment pen trace, CSS keyframe animations, abortable fetch);
    - [SingleMask]: [src/unnamed/part_000] (one mask path per stroke,
      CSS transitions, [loop] option, fetch that cannot be aborted);
    - the second program of [src/signature-player.js] has the renderer of
      [SingleMask] with the fixed [CONFIG]; its controller is the edition
      [Legacy] below (no [loop] switch).

    JavaScript numbers are IEEE 754 doubles.  The renderer is written once over
    an interface [Number] of the arithmetic it uses and is read at two
    instances: [float] (the kernel's binary64 numbers, the arithmetic the
    program runs on) and [Q] (exact rationals, the arithmetic the timing
    formulas are designed in).  Step counters, stroke indices and timer
    delays are integers ([Z], milliseconds). *)

From stdpp Require Import gmap strings list pretty.
From Stdlib Require Import ZArith QArith Lqa Floats Lia.

Open Scope Z_scope.

(** ** Numbers *)

Class Number (num : Type) := {
  nzero : num;                      (* the literal 0 *)
  nlit : Z -> num;                  (* an integer literal *)
  nadd : num -> num -> num;         (* a + b *)
  nsub : num -> num -> num;         (* a - b *)
  nmul : num -> num -> num;         (* a * b *)
  ndiv : num -> num -> num;         (* a / b *)
  ngt : num -> num -> bool;         (* a > b *)
  ntruthy : num -> bool             (* ToBoolean(a) *)
}.

(** Doubles: [0], [-0] and [NaN] are the falsy numbers; every comparison
    with [NaN] is false. *)
Definition float_of_Z (z : Z) : float :=
  if z <? 0 then PrimFloat.opp (PrimFloat.of_uint63 (Uint63.of_Z (- z)))
  else PrimFloat.of_uint63 (Uint63.of_Z z).

#[export] Instance float_number : Number float := {|
  nzero := 0%float;
  nlit := float_of_Z;
  nadd := PrimFloat.add;
  nsub := PrimFloat.sub;
  nmul := PrimFloat.mul;
  ndiv := PrimFloat.div;
  ngt := fun a b => PrimFloat.ltb b a;
  ntruthy := fun a => negb (PrimFloat.eqb a 0%float) && negb (PrimFloat.is_nan a)
|}.

(** Exact rationals. *)
#[export] Instance Q_number : Number Q := {|
  nzero := 0%Q;
  nlit := inject_Z;
  nadd := Qplus;
  nsub := Qminus;
  nmul := Qmult;
  ndiv := Qdiv;
  ngt := fun a b => negb (Qle_bool a b);
  ntruthy := fun a => negb (Qeq_bool a 0%Q)
|}.

(** [a || b] on an optional string: [undefined] and the empty string are
    falsy. *)
Definition str_truthy (s : option string) : bool :=
  match s with
  | Some s => negb (String.eqb s "")
  | None => false
  end.

Definition str_or (s : option string) (dflt : string) : string :=
  match s with
  | Some s' => if String.eqb s' "" then dflt else s'
  | None => dflt
  end.

(** ** The input document *)

Section Document.
Context {num : Type} `{Number num}.

(** [a || b] on an optional number. *)
Definition num_or (a : option num) (b : num) : num :=
  match a with
  | Some x => if ntruthy x then x else b
  | None => b
  end.

(** One entry of [rawStrokes]. *)
Record RawStroke := {
  raw_d : option string;
  raw_width : option num
}.

(** One entry of [recordedStrokes]. *)
Record RecordedStroke := {
  rec_d : option string;
  rec_width : option num;
  rawStrokes : option (list RawStroke)
}.

(** One entry of [paths]. *)
Record PathEntry := {
  path_id : string;
  path_d : string;
  path_color : option string
}.

Record Json := {
  viewBox : string;
  paths : option (list PathEntry);
  recordedStrokes : option (gmap string RecordedStroke)
}.

(** The property names every object parsed from JSON inherits from
    [Object.prototype]. *)
Definition Object_prototype_keys : list string :=
  [ "constructor"; "hasOwnProperty"; "isPrototypeOf"; "propertyIsEnumerable";
    "toLocaleString"; "toString"; "valueOf"; "__defineGetter__";
    "__defineSetter__"; "__lookupGetter__"; "__lookupSetter__"; "__proto__" ].

(** What a member access finds under one of these names when the object
    has no entry of its own there: a function (or [Object.prototype]
    itself), which is truthy and has no [d], no [width] and no
    [rawStrokes]. *)
Definition inherited_member : RecordedStroke :=
  {| rec_d := None; rec_width := None; rawStrokes := None |}.

(** [data.recordedStrokes?.[path.id]]: the entry of the object itself,
    else what the prototype has under that name. *)
Definition recorded_for (json : Json) (id : string) : option RecordedStroke :=
  match recordedStrokes json with
  | Some m =>
      match m !! id with
      | Some r => Some r
      | None =>
          if bool_decide (id ∈ Object_prototype_keys)
          then Some inherited_member else None
      end
  | None => None
  end.
End Document.

Arguments RawStroke num : clear implicits.
Arguments RecordedStroke num : clear implicits.
Arguments Json num : clear implicits.

(** ** The stroke renderer of [src/signature-player.js] (first program) *)

Module Segmented.
Section Renderer.
Context {num : Type} `{Number num}.

(** [el.getTotalLength()] of a fresh SVG path whose [d] attribute was set
    to the given value: a function of the browser, taken as given. *)
Variable getTotalLength : option string -> num.

(** An element of [measured]. *)
Record Measured := {
  m_d : option string;
  m_width : num;
  m_len : num
}.

(** An element of the state [segments]. *)
Record Segment := {
  seg_d : option string;
  seg_width : num;
  seg_len : num;
  seg_duration : num;
  seg_delay : num
}.

(** [rawStrokes && rawStrokes.length > 0 ? rawStrokes : [{ d, width }]] *)
Definition raw_of (r : RecordedStroke num) : list (RawStroke num) :=
  match rawStrokes r with
  | Some (s :: rest) => s :: rest
  | _ => [ {| raw_d := rec_d r; raw_width := rec_width r |} ]
  end.

(** The body of [raw.map(s => ...)]. *)
Definition measure (r : RecordedStroke num) (s : RawStroke num) : Measured :=
  {| m_d := raw_d s;
     m_width := num_or (raw_width s) (num_or (rec_width r) (nlit 12));
     m_len := getTotalLength (raw_d s) |}.

(** [measured.reduce((sum, s) => sum + s.len, 0)] *)
Definition totalLen_of (measured : list Measured) : num :=
  fold_left (fun sum s => nadd sum (m_len s)) measured nzero.

(** [totalLen > 0 ? (s.len / totalLen) * config.duration : 0] *)
Definition segDuration_of (totalLen duration : num) (s : Measured) : num :=
  if ngt totalLen nzero then nmul (ndiv (m_len s) totalLen) duration else nzero.

(** The second [measured.map], with [accumulatedDelay] threaded through. *)
Fixpoint allocate (totalLen duration accumulatedDelay : num)
    (measured : list Measured) : list Segment :=
  match measured with
  | [] => []
  | s :: rest =>
      let segDuration := segDuration_of totalLen duration s in
      let delay := accumulatedDelay in
      {| seg_d := m_d s; seg_width := m_width s; seg_len := m_len s;
         seg_duration := segDuration; seg_delay := delay |}
      :: allocate totalLen duration (nadd accumulatedDelay segDuration) rest
  end.

(** What the measurement effect stores in [segments]. *)
Definition segments_effect (recordedStrokeData : option (RecordedStroke num))
    (duration : num) : list Segment :=
  match recordedStrokeData with
  | None => []
  | Some r =>
      let measured := map (measure r) (raw_of r) in
      allocate (totalLen_of measured) duration nzero measured
  end.

(** The [animation] style of a mask path:
    [none], [dash Dms linear forwards Lms] or [undash Dms linear forwards Lms]. *)
Inductive Animation :=
| animation_none
| animation_dash (duration delay : num)
| animation_undash (duration delay : num).

(** A path of the mask (its constant attributes are left out). *)
Record MaskPath := {
  mask_key : nat;
  mask_d : option string;
  strokeWidth : num;
  strokeDasharray : num;
  strokeDashoffset : num;
  animation : Animation;
  seg_len_var : num                (* the custom property [--seg-len] *)
}.

Inductive Element :=
| FadePath (d fill : string) (opacity : Z) (transition_ms : num)
| MaskedPath (maskId : string) (maskContent : list MaskPath)
             (d fill : string) (opacity : Z).

(** The body of [segments.map((seg, i) => ...)]. *)
Definition mask_path (isCompleted isWaiting : bool) (direction : Z)
    (config_duration : num) (i : nat) (seg : Segment) : MaskPath :=
  let '(dashOffset, anim) :=
    if isCompleted then (nzero, animation_none)
    else if isWaiting then (seg_len seg, animation_none)
    else if direction =? 1 then
      (seg_len seg, animation_dash (seg_duration seg) (seg_delay seg))
    else
      let reverseDelay :=
        nsub config_duration (nadd (seg_delay seg) (seg_duration seg)) in
      (nzero, animation_undash (seg_duration seg) reverseDelay) in
  {| mask_key := i; mask_d := seg_d seg; strokeWidth := seg_width seg;
     strokeDasharray := seg_len seg; strokeDashoffset := dashOffset;
     animation := anim; seg_len_var := seg_len seg |}.

(** [AnimatedPath], as a function of its props and of its state
    [segments]; [maskId] is the identifier [useId] returned. *)
Definition AnimatedPath (d : string) (color : option string)
    (index currentStep direction : Z)
    (recordedStrokeData : option (RecordedStroke num))
    (config_duration : num) (segments : list Segment) (maskId : string)
    : Element :=
  let isCompleted := index <? currentStep in
  let isWaiting := index >? currentStep in
  let isCurrent := index =? currentStep in
  if negb (bool_decide (is_Some recordedStrokeData))
     || (Z.of_nat (length segments) =? 0) then
    let opacity :=
      if isCompleted then 1
      else if isCurrent && (direction =? 1) then 1
      else 0 in
    FadePath d (str_or color "#000") opacity config_duration
  else
    let maskContent :=
      imap (mask_path isCompleted isWaiting direction config_duration) segments in
    MaskedPath maskId maskContent d (str_or color "#000")
               (if isWaiting then 0 else 1).

(** The first render of a stroke: [segments] is still [[]]. *)
Definition AnimatedPath_first d color index currentStep direction
    recordedStrokeData config_duration maskId : Element :=
  AnimatedPath d color index currentStep direction recordedStrokeData
               config_duration [] maskId.

(** The render after the measurement effect has stored its result. *)
Definition AnimatedPath_measured d color index currentStep direction
    recordedStrokeData config_duration maskId : Element :=
  AnimatedPath d color index currentStep direction recordedStrokeData
               config_duration
               (segments_effect recordedStrokeData config_duration) maskId.

(** The children of the [svg] element: [data.paths.map((path, idx) => ...)],
    every stroke measured. *)
Definition strokes_view (json : Json num) (step direction : Z)
    (config_duration : num) (maskId : nat -> string) : list Element :=
  imap (fun idx path =>
          AnimatedPath_measured (path_d path) (path_color path)
            (Z.of_nat idx) step direction
            (recorded_for json (path_id path)) config_duration (maskId idx))
       (default [] (paths json)).

(** *** The dash offset a mask path shows over time

    How the browser plays the animations (CSS behaviour, with the two
    keyframe rules the program injects into the page):
    [@keyframes dash { to { stroke-dashoffset: 0 } }] and
    [@keyframes undash { from { stroke-dashoffset: 0 }
                         to { stroke-dashoffset: var(--seg-len) } }],
    each played once, [linear], fill mode [forwards]: before the delay has
    passed the attribute value shows, from the end of the animation on the
    last keyframe shows, in between the value is interpolated linearly. *)
Definition interpolate (from to duration delay t : num) : num :=
  nadd from (nmul (nsub to from) (ndiv (nsub t delay) duration)).

Definition dashoffset_at (p : MaskPath) (t : num) : num :=
  match animation p with
  | animation_none => strokeDashoffset p
  | animation_dash duration delay =>
      if ngt delay t then strokeDashoffset p
      else if ngt (nadd delay duration) t
      then interpolate (strokeDashoffset p) nzero duration delay t
      else nzero
  | animation_undash duration delay =>
      if ngt delay t then strokeDashoffset p
      else if ngt (nadd delay duration) t
      then interpolate nzero (seg_len_var p) duration delay t
      else seg_len_var p
  end.
(** The durations of a list of segments added up from 0, left to right,
    as [accumulatedDelay] adds them. *)
Definition sum_durations (segments : list Segment) : num :=
  fold_left nadd (map seg_duration segments) nzero.

(** *** Reading a presentation *)

Definition opacity_of (e : Element) : Z :=
  match e with
  | FadePath _ _ opacity _ => opacity
  | MaskedPath _ _ _ _ opacity => opacity
  end.

(** The time window of an animation: from the end of its delay to the end
    of its duration, as the program adds them up. *)
Definition animation_window (a : Animation) : option (num * num) :=
  match a with
  | animation_none => None
  | animation_dash duration delay => Some (delay, nadd delay duration)
  | animation_undash duration delay => Some (delay, nadd delay duration)
  end.

(** The condition of the fade fallback:
    [!recordedStrokeData || segments.length === 0]. *)
Definition fade_mode (recordedStrokeData : option (RecordedStroke num))
    (segments : list Segment) : bool :=
  negb (bool_decide (is_Some recordedStrokeData))
  || (Z.of_nat (length segments) =? 0).

End Renderer.
End Segmented.

(** ** The stroke renderer of [src/unnamed/part_000]

    The second program of [src/signature-player.js] has the same renderer,
    with the constant [CONFIG.duration] for [config.duration]. *)

Module SingleMask.
Section Renderer.
Context {num : Type} `{Number num}.

Inductive Element :=
| MaskedPath (maskId : string) (maskPath : option string) (maskWidth : num)
             (strokeDasharray strokeDashoffset : num) (transition_ms : num)
             (d fill : string) (opacity : Z)
| PlainPath (d fill : string) (opacity : Z) (transition_ms : num).

(** [recordedStrokeData?.d] *)
Definition maskPath_of (recordedStrokeData : option (RecordedStroke num))
    : option string :=
  match recordedStrokeData with
  | Some r => rec_d r
  | None => None
  end.

(** [recordedStrokeData?.width || 12] *)
Definition maskWidth_of (recordedStrokeData : option (RecordedStroke num)) : num :=
  num_or (match recordedStrokeData with Some r => rec_width r | None => None end)
         (nlit 12).

(** The state computation: [(targetOpacity, targetOffset)]. *)
Definition target (index currentStep direction : Z) (maskPath : option string)
    (len : num) : Z * num :=
  if index <? currentStep then (1, nzero)
  else if index >? currentStep then (0, len)
  else if direction =? 1 then (1, nzero)
  else ((if str_truthy maskPath then 1 else 0), len).

(** [AnimatedPath], as a function of its props and of its state [len]. *)
Definition AnimatedPath (d : string) (color : option string)
    (index currentStep direction : Z)
    (recordedStrokeData : option (RecordedStroke num))
    (config_duration : num) (len : num) (maskId : string) : Element :=
  let maskPath := maskPath_of recordedStrokeData in
  let maskWidth := maskWidth_of recordedStrokeData in
  let '(targetOpacity, targetOffset) :=
    target index currentStep direction maskPath len in
  if str_truthy maskPath then
    MaskedPath maskId maskPath maskWidth len targetOffset config_duration
               d (str_or color "#000") (if index >? currentStep then 0 else 1)
  else
    PlainPath d (str_or color "#000") targetOpacity config_duration.

(** *** Reading a presentation *)

Definition opacity_of (e : Element) : Z :=
  match e with
  | MaskedPath _ _ _ _ _ _ _ _ opacity => opacity
  | PlainPath _ _ opacity _ => opacity
  end.

End Renderer.
End SingleMask.

(** ** The playback controller: [SignaturePlayer]

    The component's state, its two effects and the browser's timers, as a
    discrete-event machine.  Time is in integer milliseconds. *)

Record Config := {
  loop : bool;
  duration : Z;
  delay : Z;
  loopDelay : Z;
  eraseDelay : Z
}.

Definition DEFAULT_CONFIG : Config :=
  {| loop := true; duration := 1000; delay := 100;
     loopDelay := 2000; eraseDelay := 500 |}.

(** The [options] argument of [mountSignature]. *)
Record Options := {
  opt_loop : option bool;
  opt_duration : option Z;
  opt_delay : option Z;
  opt_loopDelay : option Z;
  opt_eraseDelay : option Z
}.

(** [{ ...DEFAULT_CONFIG, ...options }] *)
Definition config_of (options : Options) : Config :=
  {| loop := default (loop DEFAULT_CONFIG) (opt_loop options);
     duration := default (duration DEFAULT_CONFIG) (opt_duration options);
     delay := default (delay DEFAULT_CONFIG) (opt_delay options);
     loopDelay := default (loopDelay DEFAULT_CONFIG) (opt_loopDelay options);
     eraseDelay := default (eraseDelay DEFAULT_CONFIG) (opt_eraseDelay options) |}.

(** The three controllers of the repository. *)
Inductive Edition :=
| Abortable       (* src/signature-player.js, first program *)
| Unabortable     (* src/unnamed/part_000 *)
| Legacy.         (* src/signature-player.js, second program: the constant
                     CONFIG, no loop switch, no abort *)

(** [CONFIG] of the second program of [src/signature-player.js]; it has no
    [loop] field, and the [Legacy] controller reads none. *)
Definition CONFIG : Config :=
  {| loop := true; duration := 1000; delay := 100;
     loopDelay := 2000; eraseDelay := 500 |}.

(** The closures the program hands to [setTimeout]. *)
Inductive Callback :=
| cb_setStep0                                (* () => setStep(0) *)
| cb_nextTick (step direction total : Z)     (* nextTick of one effect run *)
| cb_setDirection (v : Z).                   (* () => setDirection(v) *)

(** A pending timer of the browser. *)
Record Timer := {
  timer_id : nat;
  due : Z;
  callback : Callback
}.

Section Controller.
Context {num : Type}.

Record Player := {
  now : Z;                         (* the clock *)
  mounted : bool;
  jsonUrl : option string;         (* the prop *)
  data : option (Json num);        (* useState(null) *)
  step : Z;                        (* useState(-1) *)
  direction : Z;                   (* useState(1) *)
  controller : option nat;         (* the request of the current fetch effect *)
  aborted : list nat;              (* requests whose signal is aborted *)
  startTimer : option nat;         (* [let startTimer] of the fetch effect *)
  timer : option nat;              (* [let timer] of the controller effect *)
  inflight : list nat;             (* requests that have not settled *)
  queue : list Timer;              (* pending timers, in registration order *)
  nextId : nat;
  nextReq : nat
}.

Definition with_now v p :=
  {| now := v; mounted := mounted p; jsonUrl := jsonUrl p; data := data p;
     step := step p; direction := direction p; controller := controller p;
     aborted := aborted p; startTimer := startTimer p; timer := timer p;
     inflight := inflight p; queue := queue p; nextId := nextId p;
     nextReq := nextReq p |}.
Definition with_mounted v p :=
  {| now := now p; mounted := v; jsonUrl := jsonUrl p; data := data p;
     step := step p; direction := direction p; controller := controller p;
     aborted := aborted p; startTimer := startTimer p; timer := timer p;
     inflight := inflight p; queue := queue p; nextId := nextId p;
     nextReq := nextReq p |}.
Definition with_jsonUrl v p :=
  {| now := now p; mounted := mounted p; jsonUrl := v; data := data p;
     step := step p; direction := direction p; controller := controller p;
     aborted := aborted p; startTimer := startTimer p; timer := timer p;
     inflight := inflight p; queue := queue p; nextId := nextId p;
     nextReq := nextReq p |}.
Definition with_data v p :=
  {| now := now p; mounted := mounted p; jsonUrl := jsonUrl p; data := v;
     step := step p; direction := direction p; controller := controller p;
     aborted := aborted p; startTimer := startTimer p; timer := timer p;
     inflight := inflight p; queue := queue p; nextId := nextId p;
     nextReq := nextReq p |}.
Definition with_step v p :=
  {| now := now p; mounted := mounted p; jsonUrl := jsonUrl p; data := data p;
     step := v; direction := direction p; controller := controller p;
     aborted := aborted p; startTimer := startTimer p; timer := timer p;
     inflight := inflight p; queue := queue p; nextId := nextId p;
     nextReq := nextReq p |}.
Definition with_direction v p :=
  {| now := now p; mounted := mounted p; jsonUrl := jsonUrl p; data := data p;
     step := step p; direction := v; controller := controller p;
     aborted := aborted p; startTimer := startTimer p; timer := timer p;
     inflight := inflight p; queue := queue p; nextId := nextId p;
     nextReq := nextReq p |}.
Definition with_request c fl n p :=
  {| now := now p; mounted := mounted p; jsonUrl := jsonUrl p; data := data p;
     step := step p; direction := direction p; controller := c;
     aborted := aborted p; startTimer := startTimer p; timer := timer p;
     inflight := fl; queue := queue p; nextId := nextId p; nextReq := n |}.
Definition with_aborted v p :=
  {| now := now p; mounted := mounted p; jsonUrl := jsonUrl p; data := data p;
     step := step p; direction := direction p; controller := controller p;
     aborted := v; startTimer := startTimer p; timer := timer p;
     inflight := inflight p; queue := queue p; nextId := nextId p;
     nextReq := nextReq p |}.
Definition with_startTimer v p :=
  {| now := now p; mounted := mounted p; jsonUrl := jsonUrl p; data := data p;
     step := step p; direction := direction p; controller := controller p;
     aborted := aborted p; startTimer := v; timer := timer p;
     inflight := inflight p; queue := queue p; nextId := nextId p;
     nextReq := nextReq p |}.
Definition with_timer v p :=
  {| now := now p; mounted := mounted p; jsonUrl := jsonUrl p; data := data p;
     step := step p; direction := direction p; controller := controller p;
     aborted := aborted p; startTimer := startTimer p; timer := v;
     inflight := inflight p; queue := queue p; nextId := nextId p;
     nextReq := nextReq p |}.
Definition with_queue q n p :=
  {| now := now p; mounted := mounted p; jsonUrl := jsonUrl p; data := data p;
     step := step p; direction := direction p; controller := controller p;
     aborted := aborted p; startTimer := startTimer p; timer := timer p;
     inflight := inflight p; queue := q; nextId := n; nextReq := nextReq p |}.

(** *** Timers *)

(** [setTimeout(cb, ms)]: a negative delay counts as 0; the identifier of
    the new timer is returned. *)
Definition setTimeout (cb : Callback) (ms : Z) (p : Player) : nat * Player :=
  (nextId p,
   with_queue
     (queue p ++ [ {| timer_id := nextId p; due := now p + Z.max 0 ms;
                      callback := cb |} ])
     (S (nextId p)) p).

Definition drop_timer (id : nat) (q : list Timer) : list Timer :=
  List.filter (fun t => negb (Nat.eqb (timer_id t) id)) q.

(** [clearTimeout(id)], with [None] for an identifier never assigned. *)
Definition clearTimeout (id : option nat) (p : Player) : Player :=
  match id with
  | Some i => with_queue (drop_timer i (queue p)) (nextId p) p
  | None => p
  end.

(** The timer the browser fires next: the earliest due, the first
    registered among equals. *)
Fixpoint earliest (q : list Timer) : option Timer :=
  match q with
  | [] => None
  | t :: rest =>
      match earliest rest with
      | Some u => if due u <? due t then Some u else Some t
      | None => Some t
      end
  end.

(** *** The controller effect, dependencies [[step, direction, data, config]] *)

Definition total_of (json : Json num) : Z :=
  Z.of_nat (length (default [] (paths json))).

(** [timer = setTimeout(cb, ms)] inside the effect's closure. *)
Definition arm (cb : Callback) (ms : Z) (p : Player) : Player :=
  let '(id, p') := setTimeout cb ms p in with_timer (Some id) p'.

(** A re-run of the effect after a dependency changed: the cleanup of the
    previous run ([clearTimeout(timer)]), then the body. *)
Definition controller_effect (cfg : Config) (p : Player) : Player :=
  let p := clearTimeout (timer p) p in
  match data p with
  | None => with_timer None p                            (* if (!data) return; *)
  | Some json =>
      arm (cb_nextTick (step p) (direction p) (total_of json))
          (duration cfg + delay cfg) p
  end.

(** The state setters.  React drops an update of an unmounted component
    and, by [Object.is], one that leaves the state as it is; otherwise the
    component renders again and the controller effect re-runs. *)
Definition setStep (cfg : Config) (f : Z -> Z) (p : Player) : Player :=
  if mounted p then
    let s := f (step p) in
    if s =? step p then p else controller_effect cfg (with_step s p)
  else p.

Definition setDirection (cfg : Config) (v : Z) (p : Player) : Player :=
  if mounted p then
    if v =? direction p then p else controller_effect cfg (with_direction v p)
  else p.

(** [setData(json)]: a parsed document is a fresh object, never the
    previous state. *)
Definition setData (cfg : Config) (json : Json num) (p : Player) : Player :=
  if mounted p then controller_effect cfg (with_data (Some json) p) else p.

(** [nextTick], with the [step], [direction] and [total] of its closure. *)
Definition nextTick (v : Edition) (cfg : Config) (step direction total : Z)
    (p : Player) : Player :=
  if direction =? 1 then
    if step <? total - 1 then setStep cfg (fun s => s + 1) p
    else
      match v with
      | Legacy => arm (cb_setDirection (-1)) (loopDelay cfg) p
      | _ =>
          if loop cfg then arm (cb_setDirection (-1)) (loopDelay cfg) p
          else p
      end
  else
    if step >? 0 then setStep cfg (fun s => s - 1) p
    else arm (cb_setDirection 1) (eraseDelay cfg) p.

(** *** The fetch effect, dependencies [[jsonUrl]] *)

Definition fetch_effect (p : Player) : Player :=
  if str_truthy (jsonUrl p) then
    with_startTimer None
      (with_request (Some (nextReq p)) (nextReq p :: inflight p)
                    (S (nextReq p)) p)
  else
    with_startTimer None (with_request None (inflight p) (nextReq p) p).

(** The cleanup the effect returned: only the first program of
    [src/signature-player.js] returns one. *)
Definition fetch_cleanup (v : Edition) (p : Player) : Player :=
  match v, controller p with
  | Abortable, Some c =>
      clearTimeout (startTimer p) (with_aborted (c :: aborted p) p)
  | _, _ => p
  end.

(** The [then] callback on the parsed document of request [rid].  It calls
    [setData] and registers the start timer; the render that [setData]
    asks for, and with it the controller effect, comes after the callback
    has returned, so the start timer is registered first. *)
Definition on_json (v : Edition) (cfg : Config) (rid : nat) (json : Json num)
    (p : Player) : Player :=
  match v with
  | Abortable =>
      if bool_decide (rid ∈ aborted p) then p
      else
        match paths json with
        | Some _ =>
            let '(id, p') := setTimeout cb_setStep0 500 p in
            setData cfg json (with_startTimer (Some id) p')
        | None => p
        end
  | _ =>
      match paths json with
      | Some _ => setData cfg json (snd (setTimeout cb_setStep0 500 p))
      | None => p
      end
  end.

(** *** Events *)

Definition run_callback (v : Edition) (cfg : Config) (cb : Callback)
    (p : Player) : Player :=
  match cb with
  | cb_setStep0 => setStep cfg (fun _ => 0) p
  | cb_nextTick s d n => nextTick v cfg s d n p
  | cb_setDirection x => setDirection cfg x p
  end.

(** The next timer fires, if one is pending. *)
Definition fire (v : Edition) (cfg : Config) (p : Player) : option Player :=
  match earliest (queue p) with
  | Some t =>
      Some (run_callback v cfg (callback t)
              (with_now (Z.max (now p) (due t))
                 (with_queue (drop_timer (timer_id t) (queue p)) (nextId p) p)))
  | None => None
  end.

Inductive Event :=
| ev_timeout                                          (* a timer fires *)
| ev_response (rid : nat) (json : Json num) (time : Z) (* r.json() resolves *)
| ev_failure (rid : nat) (time : Z)                    (* the fetch rejects *)
| ev_setUrl (url : option string) (time : Z)           (* the prop changes *)
| ev_unmount (time : Z).                               (* root.unmount() *)

(** An outside event at [time] comes after the clock and before every
    timer due later. *)
Definition in_order (time : Z) (p : Player) : bool :=
  (now p <=? time) && forallb (fun t => time <=? due t) (queue p).

Definition settle (rid : nat) (p : Player) : Player :=
  with_request (controller p)
    (List.filter (fun r => negb (Nat.eqb r rid)) (inflight p)) (nextReq p) p.

Definition exec (v : Edition) (cfg : Config) (e : Event) (p : Player)
    : option Player :=
  match e with
  | ev_timeout => fire v cfg p
  | ev_response rid json time =>
      if in_order time p && bool_decide (rid ∈ inflight p)
      then Some (on_json v cfg rid json (settle rid (with_now time p)))
      else None
  | ev_failure rid time =>
      if in_order time p && bool_decide (rid ∈ inflight p)
      then Some (settle rid (with_now time p))
      else None
  | ev_setUrl url time =>
      if in_order time p && mounted p then
        if bool_decide (url = jsonUrl p) then Some (with_now time p)
        else Some (fetch_effect
                     (with_jsonUrl url (fetch_cleanup v (with_now time p))))
      else None
  | ev_unmount time =>
      if in_order time p && mounted p then
        Some (with_mounted false
                (clearTimeout (timer p) (fetch_cleanup v (with_now time p))))
      else None
  end.

Fixpoint run (v : Edition) (cfg : Config) (es : list Event) (p : Player)
    : option Player :=
  match es with
  | [] => Some p
  | e :: rest =>
      match exec v cfg e p with
      | Some p' => run v cfg rest p'
      | None => None
      end
  end.

(** [root.render(<SignaturePlayer jsonUrl=... />)] at time 0: the state
    hooks take their initial values, the fetch effect runs, the controller
    effect returns at once ([data] is [null]). *)
Definition mount (url : option string) : Player :=
  fetch_effect
    {| now := 0; mounted := true; jsonUrl := url; data := None;
       step := -1; direction := 1; controller := None; aborted := [];
       startTimer := None; timer := None; inflight := []; queue := [];
       nextId := 0; nextReq := 0 |}.

(** The player [n] timer firings later; it stays as it is once no timer is
    pending. *)
Fixpoint after_timeouts (v : Edition) (cfg : Config) (n : nat) (p : Player)
    : Player :=
  match n with
  | O => p
  | S n' =>
      match fire v cfg p with
      | Some p' => after_timeouts v cfg n' p'
      | None => p
      end
  end.

(** The player mounted at time 0 whose document arrives at [t0], when that
    can happen (the URL is not empty, [t0] is not negative). *)
Definition loaded (v : Edition) (cfg : Config) (url : string) (json : Json num)
    (t0 : Z) : option Player :=
  exec v cfg (ev_response 0 json t0) (mount (Some url)).

(** The states of one playback session: what follows [p0] by timers
    alone. *)
Inductive session (v : Edition) (cfg : Config) (p0 : Player) : Player -> Prop :=
| session_here : session v cfg p0 p0
| session_fire p p' :
    session v cfg p0 p -> fire v cfg p = Some p' -> session v cfg p0 p'.

(** Is the start timer pending? *)
Definition is_start (t : Timer) : bool :=
  match callback t with cb_setStep0 => true | _ => false end.

Definition start_pending (p : Player) : bool := existsb is_start (queue p).

(** The pending timers, as due times and callbacks. *)
Definition pending (p : Player) : list (Z * Callback) :=
  map (fun t => (due t, callback t)) (queue p).

(** A player torn down before its document arrived: unmounted, in its
    initial state, no timer pending, every open request aborted. *)
Definition TornDown (p : Player) : Prop :=
  mounted p = false /\ data p = None /\ step p = -1 /\ direction p = 1 /\
  queue p = [] /\ forall rid, rid ∈ inflight p -> rid ∈ aborted p.

(** What an observer of the player sees of it. *)
Definition observable (p : Player) : option (Json num) * Z * Z * list Timer :=
  (data p, step p, direction p, queue p).

(** *** Invariants of a session on the document [json] *)

Section Invariants.
Variable json : Json num.

(** The pending timer of the controller effect: a tick whose closure
    holds the current state, or a dwell at one of the two extremes. *)
Definition controller_timer_ok (p : Player) (t : Timer) : Prop :=
  timer p = Some (timer_id t) /\
  match callback t with
  | cb_nextTick s d n => s = step p /\ d = direction p /\ n = total_of json
  | cb_setDirection x =>
      (x = -1 /\ direction p = 1 /\ step p = total_of json - 1) \/
      (x = 1 /\ direction p = -1 /\ step p = 0)
  | cb_setStep0 => False
  end.

(** After the start transition. *)
Definition Started (p : Player) : Prop :=
  mounted p = true /\ data p = Some json /\
  (direction p = 1 \/ direction p = -1) /\
  0 <= step p <= total_of json - 1 /\
  (queue p = [] \/ exists t, queue p = [t] /\ controller_timer_ok p t).

(** Loaded at [t0], the start timer pending and due no later than the
    first tick. *)
Definition Waiting (t0 : Z) (p : Player) : Prop :=
  mounted p = true /\ data p = Some json /\
  step p = -1 /\ direction p = 1 /\ now p = t0 /\
  exists i j dj,
    queue p =
      [ {| timer_id := i; due := t0 + 500; callback := cb_setStep0 |};
        {| timer_id := j; due := dj;
           callback := cb_nextTick (-1) 1 (total_of json) |} ] /\
    i <> j /\ timer p = Some j /\ t0 + 500 <= dj.

(** What one timer firing may do to [step] and [direction], by the
    callback that fired. *)
Definition lawful_firing (t0 : Z) (cb : Callback) (p p' : Player) : Prop :=
  match cb with
  | cb_nextTick _ _ _ =>
      direction p' = direction p /\
      ((direction p = 1 /\ step p < total_of json - 1 /\
        step p' = step p + 1) \/
       (direction p = -1 /\ step p > 0 /\ step p' = step p - 1) \/
       (step p' = step p /\
        ((direction p = 1 /\ step p = total_of json - 1) \/
         (direction p = -1 /\ step p = 0))))
  | cb_setStep0 =>
      step p = -1 /\ step p' = 0 /\ direction p' = direction p /\
      now p' = t0 + 500 /\ start_pending p' = false
  | cb_setDirection x =>
      step p' = step p /\ direction p' = x /\
      ((x = -1 /\ direction p = 1 /\ step p = total_of json - 1) \/
       (x = 1 /\ direction p = -1 /\ step p = 0))
  end.
End Invariants.

(** The end-of-erase behaviour as the specification states it, at a player
    [p] whose tick is due with [direction = -1] and [step = 0]: the tick
    schedules one change of direction after [eraseDelay] and leaves the
    state alone, the change re-arms the tick one interval later, and that
    tick takes [step] from 0 to 1. *)
Definition end_of_erase_as_specified (v : Edition) (cfg : Config)
    (p : Player) : Prop :=
  let p1 := after_timeouts v cfg 1 p in
  let p2 := after_timeouts v cfg 2 p in
  let p3 := after_timeouts v cfg 3 p in
  (step p1 = 0 /\ direction p1 = -1 /\
   pending p1
     = [ (now p1 + Z.max 0 (eraseDelay cfg), cb_setDirection 1) ]) /\
  (step p2 = 0 /\ direction p2 = 1 /\
   pending p2
     = [ (now p2 + Z.max 0 (duration cfg + delay cfg),
          cb_nextTick 0 1 (default 0 (total_of <$> data p))) ]) /\
  step p3 = 1 /\
  (forall n, step (after_timeouts v cfg n p) <> -1).
End Controller.

Arguments Player num : clear implicits.
Arguments Event num : clear implicits.

(** ** Documents, settings and traces used in the examples below *)

Definition stroke (id : string) : PathEntry :=
  {| path_id := id; path_d := "M0 0h10v10h-10z"; path_color := None |}.

(** A document of [n] strokes without recorded traces. *)
Definition plain_document (n : nat) : Json float :=
  {| viewBox := "0 0 100 100";
     paths := Some (map (fun i => stroke (pretty i)) (seq 0 n));
     recordedStrokes := None |}.

(** [{ loop: false, duration: 100, delay: 0 }] *)
Definition quick_once : Config :=
  config_of {| opt_loop := Some false; opt_duration := Some 100;
               opt_delay := Some 0; opt_loopDelay := None;
               opt_eraseDelay := None |}.

(** [{ loop: false }] *)
Definition once : Config :=
  config_of {| opt_loop := Some false; opt_duration := None;
               opt_delay := None; opt_loopDelay := None;
               opt_eraseDelay := None |}.

(** [{ duration: 100, delay: 100 }] *)
Definition quick : Config :=
  config_of {| opt_loop := None; opt_duration := Some 100;
               opt_delay := Some 100; opt_loopDelay := None;
               opt_eraseDelay := None |}.

(** [{ duration: 10, delay: 0, loopDelay: 0, eraseDelay: 1000 }] *)
Definition hasty : Config :=
  config_of {| opt_loop := None; opt_duration := Some 10;
               opt_delay := Some 0; opt_loopDelay := Some 0;
               opt_eraseDelay := Some 1000 |}.

(** A recorded stroke of [n] raw strokes. *)
Definition recorded_raw {num : Type} (n : nat) : RecordedStroke num :=
  {| rec_d := None; rec_width := None;
     rawStrokes :=
       Some (map (fun i => {| raw_d := Some ("M0 0L" +:+ pretty i +:+ " 0");
                              raw_width := None |}) (seq 1 n)) |}.

(** An entry without path data and without raw strokes:
    [{ width: w, rawStrokes: [] }] or [{ width: w }]. *)
Definition recorded_empty {num : Type} (w : option num) (listed : bool)
    : RecordedStroke num :=
  {| rec_d := None; rec_width := w;
     rawStrokes := if listed then Some [] else None |}.

(** The second raw stroke of [recorded_raw n] measures 5, every other
    path 1. *)
Definition lengths_1_5_1 (d : option string) : float :=
  if bool_decide (d = Some "M0 0L2 0") then 5%float else 1%float.

(** Every path measures to the same length. *)
Definition all_of_length {num : Type} (len : num) : option string -> num :=
  fun _ => len.

(** A document of two strokes, the first with a recorded trace of two raw
    strokes, the second without entry. *)
Definition traced_document : Json float :=
  {| viewBox := "0 0 100 100";
     paths := Some [stroke "0"; stroke "1"];
     recordedStrokes := Some {[ "0" := recorded_raw 2 ]} |}.

(** The player mounted on [signature.json], a document of [n] strokes that
    arrives at time 0. *)
Definition demo_player (v : Edition) (cfg : Config) (n : nat) : Player float :=
  default (mount None) (loaded v cfg "signature.json" (plain_document n) 0).

(** ** What [SignaturePlayer] renders, and further states of a player *)

(** The [svg] element: its [viewBox] and its children. *)
Record Svg {num : Type} := {
  svg_viewBox : string;
  svg_children : list (Segmented.Element (num := num))
}.

Arguments Svg num : clear implicits.

(** The return value of [SignaturePlayer] in the first program of
    [src/signature-player.js]: [null] while [data] is [null], else the
    [svg] element over the strokes. *)
Definition SignaturePlayer_render {num : Type} `{Number num}
    (getTotalLength : option string -> num) (maskId : nat -> string)
    (config_duration : num) (p : Player num) : option (Svg num) :=
  match data p with
  | None => None
  | Some json =>
      Some {| svg_viewBox := viewBox json;
              svg_children :=
                Segmented.strokes_view getTotalLength json (step p)
                  (direction p) config_duration maskId |}
  end.

(** The controller timers among the pending ones. *)
Definition controller_timers (q : list Timer) : list Timer :=
  List.filter (fun t => negb (is_start t)) q.

Definition start_timers (q : list Timer) : list Timer :=
  List.filter is_start q.

(** The pending timers of the controller effect, as due times and
    callbacks. *)
Definition controller_pending {num : Type} (p : Player num)
    : list (Z * Callback) :=
  map (fun t => (due t, callback t)) (controller_timers (queue p)).

(** A mounted player without a document and without timers. *)
Definition Idle {num : Type} (p : Player num) : Prop :=
  mounted p = true /\ data p = None /\ step p = -1 /\ direction p = 1 /\
  queue p = [].



(** The pending timer of the controller effect, whatever the settings: a
    tick whose closure holds the current state, or a dwell. *)
Definition controller_timer_fresh {num : Type} (json : Json num)
    (p : Player num) (t : Timer) : Prop :=
  timer p = Some (timer_id t) /\
  match callback t with
  | cb_nextTick s d n => s = step p /\ d = direction p /\ n = total_of json
  | cb_setDirection x => x = 1 \/ x = -1
  | cb_setStep0 => False
  end.

(** The shape a loaded player keeps whatever the settings and the document:
    at most one start timer, registered before at most one timer of the
    controller effect. *)
Definition Orderly {num : Type} (json : Json num) (p : Player num) : Prop :=
  mounted p = true /\ data p = Some json /\
  (direction p = 1 \/ direction p = -1) /\
  -1 <= step p <= Z.max 0 (total_of json - 1) /\
  Forall (fun t => (timer_id t < nextId p)%nat) (queue p) /\
  (queue p = [] \/
   (exists c, queue p = [c] /\ controller_timer_fresh json p c) \/
   (exists s, queue p = [s] /\ callback s = cb_setStep0) \/
   (exists s c, queue p = [s; c] /\ callback s = cb_setStep0 /\
                timer_id s <> timer_id c /\ controller_timer_fresh json p c)).

(** An event that brings no document: the fetch rejects, the parsed
    response has no [paths] (the [then] callback does nothing), or the
    component is rendered with another [jsonUrl] and fetches again. *)
Definition harmless {num : Type} (e : Event num) : Prop :=
  match e with
  | ev_failure _ _ => True
  | ev_response _ json _ => paths json = None
  | ev_setUrl _ _ => True
  | _ => False
  end.

(** A started player at time [T] with [step = s], [direction = d] and one
    timer pending, that of the controller effect, due at [D] to call
    [cb]. *)
Definition Playing {num : Type} (json : Json num) (s d T : Z) (cb : Callback)
    (D : Z) (p : Player num) : Prop :=
  mounted p = true /\ data p = Some json /\ step p = s /\ direction p = d /\
  now p = T /\ T <= D /\
  exists id, queue p = [ {| timer_id := id; due := D; callback := cb |} ] /\
             timer p = Some id.

(** ** The renderer: classification of a stroke *)

(** Decide how [index] compares with [currentStep]. *)
Ltac compare_steps index currentStep :=
  rewrite ?Z.gtb_ltb;
  destruct (Z.ltb_spec index currentStep);
  destruct (Z.ltb_spec currentStep index);
  destruct (Z.eqb_spec index currentStep);
  try lia.

(** C1. The renderer classifies a stroke by comparing its index with the
    current step, and the mode of the presentation is fixed by the trace:
    fade mode without a recorded entry or measured segment (single-mask
    renderer: without mask path), traced mode otherwise.  A stroke whose
    index is below the current step is presented fully revealed and fully
    opaque: in fade mode the path with opacity 1; in traced mode the outline
    with opacity 1 behind a mask that has, for every segment and in their
    order, a path with the segment's geometry and width at dash offset 0,
    not animated.  A stroke whose index is above the current step is
    presented fully hidden: in fade mode the path with opacity 0; in traced
    mode the outline with opacity 0 and every mask path at a dash offset
    (and dash length) of the whole segment length, not animated.  Neither
    presentation depends on the direction.  This holds in the
    segmented renderer, for every state [segments], and in the single-mask
    renderer, for every state [len]. *)
Theorem classification_by_index {num : Type} `{Number num}
    (d : string) (color : option string) (index currentStep direction : Z)
    (rsd : option (RecordedStroke num)) (D : num)
    (segments : list Segmented.Segment) (len : num) (maskId : string) :
  (Segmented.fade_mode rsd segments = true <-> rsd = None \/ segments = []) /\
  (index < currentStep ->
     Segmented.AnimatedPath d color index currentStep direction rsd D
       segments maskId
     = (if Segmented.fade_mode rsd segments
        then Segmented.FadePath d (str_or color "#000") 1 D
        else
          Segmented.MaskedPath maskId
            (imap (fun i seg =>
                     {| Segmented.mask_key := i;
                        Segmented.mask_d := Segmented.seg_d seg;
                        Segmented.strokeWidth := Segmented.seg_width seg;
                        Segmented.strokeDasharray := Segmented.seg_len seg;
                        Segmented.strokeDashoffset := nzero;
                        Segmented.animation := Segmented.animation_none;
                        Segmented.seg_len_var := Segmented.seg_len seg |})
                  segments)
            d (str_or color "#000") 1) /\
     SingleMask.AnimatedPath d color index currentStep direction rsd D len
       maskId
     = (if str_truthy (SingleMask.maskPath_of rsd)
        then
          SingleMask.MaskedPath maskId (SingleMask.maskPath_of rsd)
            (SingleMask.maskWidth_of rsd) len nzero D
            d (str_or color "#000") 1
        else SingleMask.PlainPath d (str_or color "#000") 1 D)) /\
  (index > currentStep ->
     Segmented.AnimatedPath d color index currentStep direction rsd D
       segments maskId
     = (if Segmented.fade_mode rsd segments
        then Segmented.FadePath d (str_or color "#000") 0 D
        else
          Segmented.MaskedPath maskId
            (imap (fun i seg =>
                     {| Segmented.mask_key := i;
                        Segmented.mask_d := Segmented.seg_d seg;
                        Segmented.strokeWidth := Segmented.seg_width seg;
                        Segmented.strokeDasharray := Segmented.seg_len seg;
                        Segmented.strokeDashoffset := Segmented.seg_len seg;
                        Segmented.animation := Segmented.animation_none;
                        Segmented.seg_len_var := Segmented.seg_len seg |})
                  segments)
            d (str_or color "#000") 0) /\
     SingleMask.AnimatedPath d color index currentStep direction rsd D len
       maskId
     = (if str_truthy (SingleMask.maskPath_of rsd)
        then
          SingleMask.MaskedPath maskId (SingleMask.maskPath_of rsd)
            (SingleMask.maskWidth_of rsd) len len D
            d (str_or color "#000") 0
        else SingleMask.PlainPath d (str_or color "#000") 0 D)) /\
  (index <> currentStep ->
   forall direction',
     Segmented.AnimatedPath d color index currentStep direction rsd D
       segments maskId
     = Segmented.AnimatedPath d color index currentStep direction' rsd D
         segments maskId /\
     SingleMask.AnimatedPath d color index currentStep direction rsd D len
       maskId
     = SingleMask.AnimatedPath d color index currentStep direction' rsd D len
         maskId).
Proof.
  split; [|split; [|split]].
  - unfold Segmented.fade_mode. destruct rsd as [r|], segments as [|seg rest].
    + split; [now right|reflexivity].
    + rewrite bool_decide_eq_true_2 by (eexists; reflexivity).
      cbn [negb orb length]. split; [|intros [?|?]; discriminate].
      intros Hz. apply Z.eqb_eq in Hz. lia.
    + split; [now left|reflexivity].
    + split; [now left|]. intros _.
      rewrite bool_decide_eq_false_2 by (intros [x Hx]; discriminate).
      reflexivity.
  - intros Hidx. split.
    + unfold Segmented.AnimatedPath, Segmented.fade_mode.
      compare_steps index currentStep.
      destruct (negb _ || _); reflexivity.
    + unfold SingleMask.AnimatedPath, SingleMask.target.
      compare_steps index currentStep.
      destruct (str_truthy _); reflexivity.
  - intros Hidx. split.
    + unfold Segmented.AnimatedPath, Segmented.fade_mode.
      compare_steps index currentStep.
      destruct (negb _ || _); reflexivity.
    + unfold SingleMask.AnimatedPath, SingleMask.target.
      compare_steps index currentStep.
      destruct (str_truthy _); reflexivity.
  - intros Hidx direction'. split.
    + unfold Segmented.AnimatedPath, Segmented.mask_path.
      compare_steps index currentStep; reflexivity.
    + unfold SingleMask.AnimatedPath, SingleMask.target.
      compare_steps index currentStep; reflexivity.
Qed.

(** A traced stroke of two raw strokes, measured, below the current step. *)
Lemma classification_by_index_witness :
  Segmented.AnimatedPath (num := float) "M0 0h10v10h-10z" None 0 1 (-1)
    (Some (recorded_raw 2)) 1000%float
    (Segmented.segments_effect (all_of_length 1%float)
       (Some (recorded_raw 2)) 1000%float) "m0"
  = Segmented.MaskedPath "m0"
      [ {| Segmented.mask_key := 0; Segmented.mask_d := Some "M0 0L1 0";
           Segmented.strokeWidth := 12%float;
           Segmented.strokeDasharray := 1%float;
           Segmented.strokeDashoffset := 0%float;
           Segmented.animation := Segmented.animation_none;
           Segmented.seg_len_var := 1%float |};
        {| Segmented.mask_key := 1; Segmented.mask_d := Some "M0 0L2 0";
           Segmented.strokeWidth := 12%float;
           Segmented.strokeDasharray := 1%float;
           Segmented.strokeDashoffset := 0%float;
           Segmented.animation := Segmented.animation_none;
           Segmented.seg_len_var := 1%float |} ]
      "M0 0h10v10h-10z" "#000" 1.
Proof.
  destruct (classification_by_index (num := float) "M0 0h10v10h-10z" None 0 1
              (-1) (Some (recorded_raw 2)) 1000%float
              (Segmented.segments_effect (all_of_length 1%float)
                 (Some (recorded_raw 2)) 1000%float) 0%float "m0")
    as (_ & Hbelow & _).
  destruct (Hbelow eq_refl) as [Hsegmented _].
  etransitivity; [exact Hsegmented|]. vm_compute. reflexivity.
Defined.

(** ** The renderer: fade mode *)

(** C7. In fade mode the current stroke is hidden while the direction is
    backward (opacity 0), and its presentation is the one it has as a pending
    stroke, that is, under any earlier step; this holds in both renderers.
    The two renderers, one with an explicit test of the direction and one
    with the test [maskPath ? 1 : 0], give the same fade-mode opacity for
    every index, current step and direction. *)
Theorem fade_backward_current_hidden {num : Type} `{Number num}
    (d : string) (color : option string) (index currentStep direction : Z)
    (rsd : option (RecordedStroke num)) (D : num)
    (segments : list Segmented.Segment) (len : num) (maskId : string) :
  Segmented.fade_mode rsd segments = true ->
  str_truthy (SingleMask.maskPath_of rsd) = false ->
  (index = currentStep -> direction <> 1 ->
     Segmented.AnimatedPath d color index currentStep direction rsd D
       segments maskId
     = Segmented.FadePath d (str_or color "#000") 0 D /\
     SingleMask.AnimatedPath d color index currentStep direction rsd D len
       maskId
     = SingleMask.PlainPath d (str_or color "#000") 0 D /\
     forall earlier, earlier < index ->
       Segmented.AnimatedPath d color index currentStep direction rsd D
         segments maskId
       = Segmented.AnimatedPath d color index earlier direction rsd D
           segments maskId /\
       SingleMask.AnimatedPath d color index currentStep direction rsd D len
         maskId
       = SingleMask.AnimatedPath d color index earlier direction rsd D len
           maskId) /\
  Segmented.opacity_of
    (Segmented.AnimatedPath d color index currentStep direction rsd D
       segments maskId)
  = SingleMask.opacity_of
      (SingleMask.AnimatedPath d color index currentStep direction rsd D len
         maskId).
Proof.
  intros Hfade Hmask.
  unfold Segmented.AnimatedPath, SingleMask.AnimatedPath, SingleMask.target.
  unfold Segmented.fade_mode in Hfade. rewrite Hfade, Hmask.
  split.
  - intros -> Hdir.
    assert ((direction =? 1) = false) as Hd by now apply Z.eqb_neq.
    rewrite Hd, Z.gtb_ltb, Z.ltb_irrefl, Z.eqb_refl. simpl.
    repeat split; intros; rewrite ?Z.gtb_ltb, ?andb_false_r;
      destruct (Z.ltb_spec currentStep earlier); try lia;
      destruct (Z.ltb_spec earlier currentStep); try lia; reflexivity.
  - compare_steps index currentStep; simpl; destruct (direction =? 1);
      reflexivity.
Qed.

Lemma fade_backward_current_hidden_witness :
  Segmented.opacity_of
    (Segmented.AnimatedPath (num := float) "M0 0h10v10h-10z" None 2 2 (-1)
       None 1000%float [] "m2")
  = SingleMask.opacity_of
      (SingleMask.AnimatedPath (num := float) "M0 0h10v10h-10z" None 2 2 (-1)
         None 1000%float 0%float "m2").
Proof.
  apply (fade_backward_current_hidden (num := float) "M0 0h10v10h-10z" None
           2 2 (-1) None 1000%float [] 0%float "m2"); reflexivity.
Defined.

(** ** The renderer: a recorded entry without raw strokes *)

Lemma allocate_length {num : Type} `{Number num} (totalLen D acc : num)
    (measured : list Segmented.Measured) :
  length (Segmented.allocate totalLen D acc measured) = length measured.
Proof.
  revert acc. induction measured as [|s rest IH]; intros acc; simpl.
  - reflexivity.
  - now rewrite IH.
Qed.

Lemma raw_of_nonempty {num : Type} `{Number num} (r : RecordedStroke num) :
  Segmented.raw_of r <> [].
Proof.
  unfold Segmented.raw_of. destruct (rawStrokes r) as [[|s rest]|]; discriminate.
Qed.

Lemma measured_segments_nonempty {num : Type} `{Number num}
    (getTotalLength : option string -> num) (r : RecordedStroke num) (D : num) :
  Segmented.segments_effect getTotalLength (Some r) D <> [].
Proof.
  unfold Segmented.segments_effect. intros Hnil.
  apply (f_equal length) in Hnil.
  rewrite allocate_length, length_map in Hnil.
  pose proof (raw_of_nonempty r) as Hraw.
  destruct (Segmented.raw_of r); [congruence|discriminate].
Qed.

(** An entry for one stroke identifier has no effect on the strokes with
    another identifier. *)
Lemma other_strokes_unaffected {num : Type} `{Number num}
    (getTotalLength : option string -> num) (currentStep direction : Z)
    (r : RecordedStroke num) (D : num) (viewBox : string)
    (strokes : list PathEntry) (entries : gmap string (RecordedStroke num))
    (id : string) (maskIds : nat -> string) (idx : nat) (path : PathEntry) :
  strokes !! idx = Some path -> path_id path <> id ->
  Segmented.strokes_view getTotalLength
    {| viewBox := viewBox; paths := Some strokes;
       recordedStrokes := Some (<[id := r]> entries) |}
    currentStep direction D maskIds !! idx
  = Segmented.strokes_view getTotalLength
      {| viewBox := viewBox; paths := Some strokes;
         recordedStrokes := Some entries |}
      currentStep direction D maskIds !! idx.
Proof.
  intros Hidx Hid. unfold Segmented.strokes_view. simpl.
  rewrite !list_lookup_imap, Hidx. simpl.
  unfold recorded_for. simpl. rewrite lookup_insert_ne by congruence.
  reflexivity.
Qed.

(** C8, at the input where the first program of [src/signature-player.js]
    departs from it: a recorded entry that is present with an empty segment
    list and no path data of its own, [{ rawStrokes: [] }] (or an entry
    without [rawStrokes] at all), with any [width].  On the first render,
    while the state [segments] is still empty, the stroke is presented as a
    stroke without entry.  But the measurement effect does not leave
    [segments] empty: [rawStrokes.length > 0 ? rawStrokes : [{ d, width }]]
    makes one segment of the entry's own, absent, path data, so the test
    [segments.length === 0] of the fallback never holds again, and the
    stroke is presented in traced mode through a mask whose only path has
    no geometry: an outline of opacity 1 behind an empty mask once it is
    current or completed, where the stroke without entry fades in.  The
    single-mask renderer of [src/unnamed/part_000] presents the same entry
    as no entry, as the claim says. *)
Theorem empty_trace_is_masked_without_geometry {num : Type} `{Number num}
    (getTotalLength : option string -> num)
    (d : string) (color : option string) (index currentStep direction : Z)
    (w : option num) (listed : bool) (D len : num) (maskId : string) :
  let r := recorded_empty w listed in
  Segmented.AnimatedPath_first d color index currentStep direction (Some r)
    D maskId
  = Segmented.AnimatedPath_first d color index currentStep direction None
      D maskId /\
  map Segmented.seg_d (Segmented.segments_effect getTotalLength (Some r) D)
  = [None] /\
  (exists m,
     Segmented.AnimatedPath_measured getTotalLength d color index currentStep
       direction (Some r) D maskId
     = Segmented.MaskedPath maskId [m] d (str_or color "#000")
         (if index >? currentStep then 0 else 1) /\
     Segmented.mask_d m = None) /\
  (exists opacity,
     Segmented.AnimatedPath_measured getTotalLength d color index currentStep
       direction None D maskId
     = Segmented.FadePath d (str_or color "#000") opacity D) /\
  Segmented.AnimatedPath_measured getTotalLength d color index currentStep
    direction (Some r) D maskId
  <> Segmented.AnimatedPath_measured getTotalLength d color index currentStep
       direction None D maskId /\
  SingleMask.AnimatedPath d color index currentStep direction (Some r) D len
    maskId
  = SingleMask.AnimatedPath d color index currentStep direction None D len
      maskId.
Proof.
  intros r. split; [reflexivity|]. split; [now destruct listed|].
  assert (exists m,
            Segmented.AnimatedPath_measured getTotalLength d color index
              currentStep direction (Some r) D maskId
            = Segmented.MaskedPath maskId [m] d (str_or color "#000")
                (if index >? currentStep then 0 else 1) /\
            Segmented.mask_d m = None) as Hmasked.
  { unfold Segmented.AnimatedPath_measured, Segmented.AnimatedPath.
    unfold r, recorded_empty.
    rewrite bool_decide_eq_true_2 by (eexists; reflexivity).
    destruct listed; cbn [Segmented.segments_effect Segmented.raw_of
                          rawStrokes rec_d rec_width map Segmented.allocate
                          length negb orb imap Z.of_nat Pos.of_succ_nat
                          Z.eqb];
      (eexists; split; [reflexivity|]);
      unfold Segmented.mask_path;
      destruct (index <? currentStep), (index >? currentStep),
        (direction =? 1); reflexivity. }
  assert (exists opacity,
            Segmented.AnimatedPath_measured getTotalLength d color index
              currentStep direction None D maskId
            = Segmented.FadePath d (str_or color "#000") opacity D) as Hfade.
  { eexists. reflexivity. }
  split; [exact Hmasked|]. split; [exact Hfade|]. split.
  - destruct Hmasked as (m & -> & _), Hfade as (opacity & ->). discriminate.
  - reflexivity.
Qed.

(** ** The renderer: timing of the segments of a trace *)

Section Allocation.
Context {num : Type} `{Number num}.
Variables totalLen D : num.

Lemma allocate_lens acc (measured : list Segmented.Measured) :
  map Segmented.seg_len (Segmented.allocate totalLen D acc measured)
  = map Segmented.m_len measured.
Proof.
  revert acc. induction measured as [|s rest IH]; intros acc; simpl.
  - reflexivity.
  - now rewrite IH.
Qed.

Lemma allocate_durations acc (measured : list Segmented.Measured) :
  map Segmented.seg_duration (Segmented.allocate totalLen D acc measured)
  = map (Segmented.segDuration_of totalLen D) measured.
Proof.
  revert acc. induction measured as [|s rest IH]; intros acc; simpl.
  - reflexivity.
  - now rewrite IH.
Qed.

(** The delay of a segment is the accumulator the allocation started
    with, plus the durations of the segments before it, in order. *)
Lemma allocate_delays acc (measured : list Segmented.Measured) i seg :
  Segmented.allocate totalLen D acc measured !! i = Some seg ->
  Segmented.seg_delay seg
  = fold_left nadd
      (map Segmented.seg_duration
         (take i (Segmented.allocate totalLen D acc measured))) acc.
Proof.
  revert acc i. induction measured as [|s rest IH]; intros acc i Hi.
  - destruct i; discriminate.
  - destruct i as [|i]; simpl in *.
    + now inversion Hi.
    + now apply IH.
Qed.

Lemma allocate_consecutive acc (measured : list Segmented.Measured) i a b :
  Segmented.allocate totalLen D acc measured !! i = Some a ->
  Segmented.allocate totalLen D acc measured !! S i = Some b ->
  Segmented.seg_delay b
  = nadd (Segmented.seg_delay a) (Segmented.seg_duration a).
Proof.
  revert acc i. induction measured as [|s rest IH]; intros acc i Ha Hb.
  - destruct i; discriminate.
  - destruct i as [|i]; simpl in *.
    + inversion Ha; subst a; clear Ha. destruct rest as [|s' rest].
      * discriminate.
      * simpl in Hb. now inversion Hb.
    + eapply IH; eassumption.
Qed.
End Allocation.

(** *** Exact arithmetic *)

Lemma Q_gt_true (a b : Q) : (b < a)%Q -> ngt a b = true.
Proof.
  intros Hlt. simpl. destruct (Qle_bool a b) eqn:Hle; [|reflexivity].
  apply Qle_bool_iff in Hle. lra.
Qed.

Lemma Q_gt_false (a b : Q) : (a <= b)%Q -> ngt a b = false.
Proof.
  intros Hle. simpl. apply Qle_bool_iff in Hle. now rewrite Hle.
Qed.

Lemma Q_sum_shift (l : list Q) (acc : Q) :
  (fold_left Qplus l acc == acc + fold_left Qplus l 0)%Q.
Proof.
  revert acc. induction l as [|x l IH]; intros acc; simpl.
  - ring.
  - rewrite IH, (IH (0 + x)%Q). ring.
Qed.

Lemma Q_totalLen_of (measured : list (Segmented.Measured (num := Q))) :
  Segmented.totalLen_of measured
  = fold_left Qplus (map Segmented.m_len measured) 0%Q.
Proof.
  unfold Segmented.totalLen_of. simpl. generalize 0%Q.
  induction measured as [|s rest IH]; intros acc; simpl.
  - reflexivity.
  - apply IH.
Qed.

Lemma Q_sum_shares (T D acc : Q) (measured : list (Segmented.Measured (num := Q))) :
  (fold_left Qplus
     (map (fun s => Segmented.m_len s / T * D) measured) acc
   == acc + fold_left Qplus (map Segmented.m_len measured) 0 / T * D)%Q.
Proof.
  revert acc. induction measured as [|s rest IH]; intros acc; simpl.
  - unfold Qdiv. ring.
  - rewrite IH, (Q_sum_shift _ (0 + Segmented.m_len s)%Q).
    unfold Qdiv. ring.
Qed.

(** C3, in exact arithmetic.  For a recorded stroke whose measured segments
    have a positive total length, segment [i] is given the duration
    [len_i / totalLen * strokeDuration] and, as its start offset, the sum of
    the durations of the segments before it; so every segment starts where
    the one before it ends, and the durations add up to [strokeDuration]. *)
Theorem segment_timing_proportional (getTotalLength : option string -> Q)
    (r : RecordedStroke Q) (D : Q) :
  let measured :=
    map (Segmented.measure getTotalLength r) (Segmented.raw_of r) in
  let totalLen := Segmented.totalLen_of measured in
  let segments := Segmented.segments_effect getTotalLength (Some r) D in
  (0 < totalLen)%Q ->
  map Segmented.seg_len segments = map Segmented.m_len measured /\
  map Segmented.seg_duration segments
  = map (fun s => (Segmented.m_len s / totalLen * D)%Q) measured /\
  (forall i seg, segments !! i = Some seg ->
     Segmented.seg_delay seg = Segmented.sum_durations (take i segments)) /\
  (forall i a b, segments !! i = Some a -> segments !! S i = Some b ->
     Segmented.seg_delay b
     = (Segmented.seg_delay a + Segmented.seg_duration a)%Q) /\
  (Segmented.sum_durations segments == D)%Q.
Proof.
  intros measured totalLen segments Hpos.
  assert (map Segmented.seg_duration segments
          = map (fun s => (Segmented.m_len s / totalLen * D)%Q) measured)
    as Hdur.
  { unfold segments, Segmented.segments_effect. fold measured. fold totalLen.
    rewrite allocate_durations. apply map_ext. intros s.
    unfold Segmented.segDuration_of. change (@nzero Q Q_number) with 0%Q.
    now rewrite (Q_gt_true _ _ Hpos). }
  split; [apply allocate_lens|]. split; [exact Hdur|].
  split; [|split].
  - intros i seg Hi. apply (allocate_delays _ _ _ _ _ _ Hi).
  - intros i a b Ha Hb. apply (allocate_consecutive _ _ _ _ _ _ _ Ha Hb).
  - unfold Segmented.sum_durations. rewrite Hdur. simpl.
    rewrite Q_sum_shares. unfold totalLen at 1.
    rewrite <- Q_totalLen_of. fold totalLen. field. lra.
Qed.

Lemma segment_timing_proportional_witness :
  (Segmented.sum_durations
     (Segmented.segments_effect (all_of_length 1%Q) (Some (recorded_raw 6))
        1000%Q) == 1000)%Q.
Proof.
  apply (segment_timing_proportional (all_of_length 1%Q) (recorded_raw 6)
           1000%Q).
  vm_compute. reflexivity.
Defined.

(** *** Double arithmetic *)

(** The claim C3 does not hold to the letter in the arithmetic the program
    runs on: six segments of length 1 and a stroke duration of 1000 give six
    durations of [166.66666666666666] each, which add up to less than
    1000. *)
Lemma durations_do_not_add_up_in_doubles :
  let segments :=
    Segmented.segments_effect (all_of_length 1%float) (Some (recorded_raw 6))
      1000%float in
  map Segmented.seg_len segments = [1; 1; 1; 1; 1; 1]%float /\
  map Segmented.seg_duration segments
  = replicate 6 (1 / 6 * 1000)%float /\
  PrimFloat.ltb (Segmented.sum_durations segments) 1000 = true /\
  Segmented.sum_durations segments <> 1000%float.
Proof.
  vm_compute. repeat split; try reflexivity. discriminate.
Qed.

(** ** The renderer: a trace of total length 0 *)

Section ZeroLength.
Context {num : Type} `{Number num}.
Hypothesis zero_plus_zero : nadd nzero nzero = nzero.
Hypothesis zero_not_positive : ngt nzero nzero = false.

Lemma totalLen_all_zero (measured : list Segmented.Measured) :
  Forall (fun s => Segmented.m_len s = nzero) measured ->
  Segmented.totalLen_of measured = nzero.
Proof.
  unfold Segmented.totalLen_of. induction 1 as [|s rest Hs _ IH]; simpl.
  - reflexivity.
  - now rewrite Hs, zero_plus_zero.
Qed.

Lemma allocate_all_zero (D : num) (measured : list Segmented.Measured) :
  Forall (fun s => Segmented.m_len s = nzero) measured ->
  Forall (fun seg => Segmented.seg_len seg = nzero /\
                     Segmented.seg_duration seg = nzero /\
                     Segmented.seg_delay seg = nzero)
         (Segmented.allocate nzero D nzero measured).
Proof.
  induction 1 as [|s rest Hs _ IH]; simpl.
  - constructor.
  - unfold Segmented.segDuration_of at 2.
    rewrite zero_not_positive, zero_plus_zero.
    constructor; [|exact IH]. simpl.
    unfold Segmented.segDuration_of. now rewrite zero_not_positive.
Qed.
End ZeroLength.

Lemma float_zero_plus_zero : nadd (num := float) nzero nzero = nzero.
Proof. vm_compute. reflexivity. Qed.

Lemma float_zero_not_positive : ngt (num := float) nzero nzero = false.
Proof. vm_compute. reflexivity. Qed.

(** Without the guard the share of a segment of such a trace would be
    [0 / 0 * duration], which is [NaN]. *)
Remark unguarded_share_is_nan :
  PrimFloat.is_nan (0 / 0 * 1000)%float = true.
Proof. vm_compute. reflexivity. Qed.

(** C10. When every segment of a recorded trace measures to length 0, the
    total length is 0, the guard [totalLen > 0] gives every segment the
    duration 0 and the start offset 0, and no NaN reaches the presentation:
    whatever the class of the stroke, every mask path has dash array 0, dash
    offset 0 and an animation that is none, [dash 0ms ... 0ms] or
    [undash 0ms ... (duration - 0)ms].  Stated in the double arithmetic of
    the program. *)
Theorem zero_length_trace_is_safe (getTotalLength : option string -> float)
    (r : RecordedStroke float) (D : float) :
  Forall (fun s => getTotalLength (raw_d s) = 0%float) (Segmented.raw_of r) ->
  let segments := Segmented.segments_effect getTotalLength (Some r) D in
  Segmented.totalLen_of
    (map (Segmented.measure getTotalLength r) (Segmented.raw_of r)) = 0%float /\
  segments <> [] /\
  Forall (fun seg => Segmented.seg_len seg = 0%float /\
                     Segmented.seg_duration seg = 0%float /\
                     Segmented.seg_delay seg = 0%float) segments /\
  Forall (fun seg => PrimFloat.is_nan (Segmented.seg_len seg) = false /\
                     PrimFloat.is_nan (Segmented.seg_duration seg) = false /\
                     PrimFloat.is_nan (Segmented.seg_delay seg) = false)
         segments /\
  (forall i seg (isCompleted isWaiting : bool) (direction : Z),
     segments !! i = Some seg ->
     let m :=
       Segmented.mask_path isCompleted isWaiting direction D i seg in
     Segmented.strokeDasharray m = 0%float /\
     Segmented.strokeDashoffset m = 0%float /\
     (Segmented.animation m = Segmented.animation_none \/
      Segmented.animation m = Segmented.animation_dash 0%float 0%float \/
      Segmented.animation m
      = Segmented.animation_undash 0%float (D - 0)%float)).
Proof.
  intros Hzero segments.
  assert (Forall (fun s => Segmented.m_len s = 0%float)
            (map (Segmented.measure getTotalLength r) (Segmented.raw_of r)))
    as Hlens.
  { apply Forall_map. exact Hzero. }
  pose proof (totalLen_all_zero float_zero_plus_zero _ Hlens) as Htotal.
  assert (Forall (fun seg => Segmented.seg_len seg = 0%float /\
                     Segmented.seg_duration seg = 0%float /\
                     Segmented.seg_delay seg = 0%float) segments) as Hsegs.
  { unfold segments, Segmented.segments_effect. rewrite Htotal.
    apply (allocate_all_zero float_zero_plus_zero float_zero_not_positive D _
             Hlens). }
  split; [exact Htotal|].
  split; [apply measured_segments_nonempty|].
  split; [exact Hsegs|]. split.
  - eapply Forall_impl; [exact Hsegs|].
    intros seg (-> & -> & ->). now repeat split.
  - intros i seg c w direction Hi m.
    rewrite Forall_lookup in Hsegs.
    destruct (Hsegs i seg Hi) as (Hl & Hd & Hs).
    unfold m, Segmented.mask_path.
    destruct c, w, (direction =? 1); simpl; rewrite ?Hl, ?Hd, ?Hs;
      repeat split; auto.
Qed.

Lemma zero_length_trace_is_safe_witness :
  Forall (fun seg => Segmented.seg_len seg = 0%float /\
                     Segmented.seg_duration seg = 0%float /\
                     Segmented.seg_delay seg = 0%float)
    (Segmented.segments_effect (all_of_length 0%float)
       (Some (recorded_raw 2)) 1000%float).
Proof.
  apply (zero_length_trace_is_safe (all_of_length 0%float) (recorded_raw 2)
           1000%float).
  repeat constructor.
Defined.

(** ** The renderer: the backward animation of a segment *)

Lemma allocate_lookup {num : Type} `{Number num} (T D acc : num)
    (measured : list Segmented.Measured) i seg :
  Segmented.allocate T D acc measured !! i = Some seg ->
  exists s, measured !! i = Some s /\
            Segmented.seg_len seg = Segmented.m_len s /\
            Segmented.seg_duration seg = Segmented.segDuration_of T D s.
Proof.
  revert acc i. induction measured as [|s rest IH]; intros acc i Hi.
  - destruct i; discriminate.
  - destruct i as [|i]; simpl in *.
    + inversion Hi; subst seg. exists s. now repeat split.
    + eapply IH; eassumption.
Qed.

Lemma Q_gt_cases (a b : Q) :
  (ngt a b = true /\ (b < a)%Q) \/ (ngt a b = false /\ (a <= b)%Q).
Proof.
  destruct (Qlt_le_dec b a) as [Hlt|Hle].
  - left. split; [now apply Q_gt_true|exact Hlt].
  - right. split; [now apply Q_gt_false|exact Hle].
Qed.

Lemma Q_sum_nonneg (l : list Q) :
  Forall (fun x => (0 <= x)%Q) l -> (0 <= fold_left Qplus l 0)%Q.
Proof.
  induction 1 as [|x l Hx _ IH]; simpl.
  - lra.
  - rewrite Q_sum_shift. lra.
Qed.

Lemma Q_sum_ge_member (l : list Q) i x :
  Forall (fun x => (0 <= x)%Q) l -> l !! i = Some x ->
  (x <= fold_left Qplus l 0)%Q.
Proof.
  intros Hl. revert i. induction Hl as [|y l Hy Hl IH]; intros i Hi.
  - destruct i; discriminate.
  - simpl. rewrite Q_sum_shift. pose proof (Q_sum_nonneg l Hl).
    destruct i as [|i]; simpl in Hi.
    + inversion Hi; subst. lra.
    + specialize (IH i Hi). lra.
Qed.

(** The duration of a measured segment is not negative, and it is 0 only
    for a segment of length 0. *)
Lemma Q_segment_duration (getTotalLength : option string -> Q)
    (r : RecordedStroke Q) (D : Q) i seg :
  (0 < D)%Q -> (forall d, 0 <= getTotalLength d)%Q ->
  Segmented.segments_effect getTotalLength (Some r) D !! i = Some seg ->
  (0 <= Segmented.seg_duration seg)%Q /\
  ((Segmented.seg_duration seg == 0)%Q -> (Segmented.seg_len seg == 0)%Q).
Proof.
  intros HD Hlen Hi. unfold Segmented.segments_effect in Hi.
  set (measured := map (Segmented.measure getTotalLength r) (Segmented.raw_of r)) in *.
  destruct (allocate_lookup _ _ _ _ _ _ Hi) as (s & Hs & Hl & Hd).
  assert (Forall (fun x => (0 <= x)%Q) (map Segmented.m_len measured)) as Hnn.
  { unfold measured. rewrite map_map. apply Forall_map, Forall_forall. intros; apply Hlen. }
  assert (0 <= Segmented.m_len s)%Q as Hs0.
  { rewrite Forall_lookup in Hnn. apply (Hnn i). now rewrite list_lookup_fmap, Hs. }
  rewrite Hd, Hl. unfold Segmented.segDuration_of.
  change (@nzero Q Q_number) with 0%Q.
  destruct (Q_gt_cases (Segmented.totalLen_of measured) 0) as [[-> HT]|[-> HT]].
  - cbn [nmul ndiv Q_number]. split.
    + apply Qmult_le_0_compat; [|lra]. apply Qle_shift_div_l; lra.
    + intros Hz.
      assert (Segmented.m_len s == Segmented.m_len s / Segmented.totalLen_of measured * D * Segmented.totalLen_of measured / D)%Q as -> by (field; lra).
      rewrite Hz. field. lra.
  - split; [lra|]. intros _.
    rewrite Q_totalLen_of in HT.
    assert (Segmented.m_len s <= fold_left Qplus (map Segmented.m_len measured) 0)%Q.
    { apply (Q_sum_ge_member _ i); [exact Hnn|]. now rewrite list_lookup_fmap, Hs. }
    lra.
Qed.

(** The mask of a measured stroke with an entry, in the current class. *)
Lemma current_stroke_mask {num : Type} `{Number num}
    (getTotalLength : option string -> num) (d : string)
    (color : option string) (index direction : Z) (r : RecordedStroke num)
    (D : num) (maskId : string) :
  Segmented.AnimatedPath_measured getTotalLength d color index index direction
    (Some r) D maskId
  = Segmented.MaskedPath maskId
      (imap (Segmented.mask_path false false direction D)
         (Segmented.segments_effect getTotalLength (Some r) D))
      d (str_or color "#000") 1.
Proof.
  unfold Segmented.AnimatedPath_measured, Segmented.AnimatedPath.
  rewrite Z.gtb_ltb, Z.ltb_irrefl.
  pose proof (measured_segments_nonempty getTotalLength r D) as Hne.
  destruct (Segmented.segments_effect getTotalLength (Some r) D);
    [congruence|].
  rewrite bool_decide_eq_true_2 by (eexists; reflexivity). reflexivity.
Qed.

(** C4.  A measured stroke with an entry is presented, while it is the
    current one, through the mask paths of its segments; forward, the mask
    path of a segment starts at a dash offset of the whole segment length
    and runs the animation [dash] with the duration and the delay of the
    segment; backward it starts at dash offset 0 and runs [undash] with the
    same duration and the delay
    [strokeDuration - (segStart + segDuration)].  This much holds in any
    arithmetic, for every stroke duration and every segment.  In exact
    arithmetic the time window of the backward animation is the mirror
    image of the window of the forward animation,
    [[strokeDuration - end, strokeDuration - start]], and, for a positive
    stroke duration and measured lengths that are not negative, the dash
    offset the backward animation shows at time [t] is the one the forward
    animation shows at time [strokeDuration - t], for every [t]. *)
Theorem backward_is_forward_reversed {num : Type} `{Number num}
    (getTotalLength : option string -> num) (d : string)
    (color : option string) (index direction : Z) (r : RecordedStroke num)
    (D : num) (maskId : string) (i : nat) (seg : Segmented.Segment) :
  Segmented.AnimatedPath_measured getTotalLength d color index index direction
    (Some r) D maskId
  = Segmented.MaskedPath maskId
      (imap (Segmented.mask_path false false direction D)
         (Segmented.segments_effect getTotalLength (Some r) D))
      d (str_or color "#000") 1 /\
  Segmented.mask_path false false 1 D i seg
  = {| Segmented.mask_key := i;
       Segmented.mask_d := Segmented.seg_d seg;
       Segmented.strokeWidth := Segmented.seg_width seg;
       Segmented.strokeDasharray := Segmented.seg_len seg;
       Segmented.strokeDashoffset := Segmented.seg_len seg;
       Segmented.animation :=
         Segmented.animation_dash (Segmented.seg_duration seg)
           (Segmented.seg_delay seg);
       Segmented.seg_len_var := Segmented.seg_len seg |} /\
  (direction <> 1 ->
   Segmented.mask_path false false direction D i seg
   = {| Segmented.mask_key := i;
        Segmented.mask_d := Segmented.seg_d seg;
        Segmented.strokeWidth := Segmented.seg_width seg;
        Segmented.strokeDasharray := Segmented.seg_len seg;
        Segmented.strokeDashoffset := nzero;
        Segmented.animation :=
          Segmented.animation_undash (Segmented.seg_duration seg)
            (nsub D (nadd (Segmented.seg_delay seg)
                          (Segmented.seg_duration seg)));
        Segmented.seg_len_var := Segmented.seg_len seg |}) /\
  (forall (duration : Q) (segment : Segmented.Segment (num := Q)),
     direction <> 1 ->
     exists forward_start forward_end backward_start backward_end : Q,
       Segmented.animation_window
         (Segmented.animation
            (Segmented.mask_path false false 1 duration i segment))
       = Some (forward_start, forward_end) /\
       Segmented.animation_window
         (Segmented.animation
            (Segmented.mask_path false false direction duration i segment))
       = Some (backward_start, backward_end) /\
       (backward_start == duration - forward_end)%Q /\
       (backward_end == duration - forward_start)%Q) /\
  (forall (measure : option string -> Q) (entry : RecordedStroke Q)
          (duration : Q) (segment : Segmented.Segment (num := Q)),
     direction <> 1 ->
     (0 < duration)%Q ->
     (forall path, 0 <= measure path)%Q ->
     Segmented.segments_effect measure (Some entry) duration !! i
     = Some segment ->
     forall t : Q,
       (Segmented.dashoffset_at
          (Segmented.mask_path false false direction duration i segment) t
        == Segmented.dashoffset_at
             (Segmented.mask_path false false 1 duration i segment)
             (duration - t))%Q).
Proof.
  split; [apply current_stroke_mask|]. split; [reflexivity|].
  split; [|split].
  - intros Hdir. unfold Segmented.mask_path.
    apply Z.eqb_neq in Hdir. rewrite Hdir. reflexivity.
  - intros duration segment Hdir. unfold Segmented.mask_path.
    apply Z.eqb_neq in Hdir. rewrite Hdir.
    cbn [Z.eqb Pos.eqb Segmented.animation Segmented.animation_window].
    do 4 eexists. split; [reflexivity|]. split; [reflexivity|].
    cbn [nadd nsub Q_number]. split; ring.
  - intros measure entry duration segment Hdir HD Hlen Hi t.
    destruct (Q_segment_duration _ _ _ _ _ HD Hlen Hi) as [Hdur Hzero].
    assert ((direction =? 1) = false) as Hd by now apply Z.eqb_neq.
    unfold Segmented.mask_path. rewrite Hd.
    unfold Segmented.dashoffset_at, Segmented.interpolate.
    cbn [Z.eqb Pos.eqb Segmented.animation Segmented.strokeDashoffset
         Segmented.seg_len_var nadd nsub nmul ndiv nzero Q_number].
    set (len := Segmented.seg_len segment) in *.
    set (dur := Segmented.seg_duration segment) in *.
    set (dl := Segmented.seg_delay segment) in *.
    destruct (Q_gt_cases (duration - (dl + dur)) t) as [[-> H1]|[-> H1]];
    [|destruct (Q_gt_cases (duration - (dl + dur) + dur) t)
        as [[-> H2]|[-> H2]]];
    (destruct (Q_gt_cases dl (duration - t)) as [[-> H3]|[-> H3]];
     [|destruct (Q_gt_cases (dl + dur) (duration - t)) as [[-> H4]|[-> H4]]]);
    try lra.
    + (* both animations running *)
      field. lra.
    + (* the first instant of the backward animation *)
      assert (t == duration - (dl + dur))%Q as -> by lra. field. lra.
    + (* the last instant of the backward animation *)
      assert (t == duration - dl)%Q as -> by lra. field. lra.
Qed.

Lemma backward_is_forward_reversed_witness :
  (Segmented.dashoffset_at
     (Segmented.mask_path false false (-1) 1000%Q 1
        {| Segmented.seg_d := Some "M0 0L2 0"; Segmented.seg_width := 12%Q;
           Segmented.seg_len := 1%Q;
           Segmented.seg_duration := (1000 # 2)%Q;
           Segmented.seg_delay := (1000 # 2)%Q |}) 250%Q
   == Segmented.dashoffset_at
        (Segmented.mask_path false false 1 1000%Q 1
           {| Segmented.seg_d := Some "M0 0L2 0"; Segmented.seg_width := 12%Q;
              Segmented.seg_len := 1%Q;
              Segmented.seg_duration := (1000 # 2)%Q;
              Segmented.seg_delay := (1000 # 2)%Q |}) (1000 - 250))%Q.
Proof.
  destruct (backward_is_forward_reversed (all_of_length 1%Q)
              "M0 0h10v10h-10z" None 0 (-1) (recorded_raw 2) 1000%Q "m0" 1
              {| Segmented.seg_d := Some "M0 0L2 0";
                 Segmented.seg_width := 12%Q; Segmented.seg_len := 1%Q;
                 Segmented.seg_duration := (1000 # 2)%Q;
                 Segmented.seg_delay := (1000 # 2)%Q |})
    as (_ & _ & _ & _ & Hschedule).
  apply (Hschedule (all_of_length 1%Q) (recorded_raw 2) 1000%Q).
  - discriminate.
  - reflexivity.
  - intros path. discriminate.
  - reflexivity.
Defined.

(** The claim C4 as the specification words it fails in two ways.  In
    the doubles the program computes with the reversal is exact only up to
    rounding: for raw strokes of lengths 1, 5 and 1 and a stroke duration of
    1000, the forward animation of the last segment ends at
    1000.0000000000001, its backward animation gets a negative delay and
    ends at 142.85714285714275 where the mirror image of the forward start
    is 142.85714285714278, and at time 900 the backward animation of the
    first segment shows another dash offset than the forward animation at
    time 100.  And for a stroke duration of 0, in any arithmetic, every
    segment has duration 0 and both delays are 0, so at time 0 the backward
    animation has already hidden the segment (dash offset: its length)
    while the forward animation, at time [0 - 0], has already revealed it
    (dash offset 0). *)
Lemma reversal_is_inexact_in_doubles_and_fails_at_zero_duration :
  (let segments :=
     Segmented.segments_effect lengths_1_5_1 (Some (recorded_raw 3))
       1000%float in
   let forward :=
     imap (Segmented.mask_path false false 1 1000%float) segments in
   let backward :=
     imap (Segmented.mask_path false false (-1) 1000%float) segments in
   map Segmented.seg_len segments = [1; 5; 1]%float /\
   (* 857.14285714285722 and 1000.0000000000001 *)
   Segmented.animation_window <$> (Segmented.animation <$> forward !! 2%nat)
   = Some (Some (0x1.ac92492492493p+9, 0x1.f400000000001p+9)%float) /\
   (* -1.1368683772161603e-13 and 142.85714285714275 *)
   Segmented.animation_window <$> (Segmented.animation <$> backward !! 2%nat)
   = Some (Some (-0x1p-43, 0x1.1db6db6db6db3p+7)%float) /\
   PrimFloat.ltb (-0x1p-43) 0 = true /\
   (* 142.85714285714278 *)
   (1000 - 0x1.ac92492492493p+9 = 0x1.1db6db6db6db4p+7)%float /\
   (* 0.30000000000000021 *)
   (fun m => Segmented.dashoffset_at m 900%float) <$> backward !! 0%nat
   = Some 0x1.3333333333337p-2%float /\
   (* 0.30000000000000004 *)
   (fun m => Segmented.dashoffset_at m (1000 - 900)%float) <$> forward !! 0%nat
   = Some 0x1.3333333333334p-2%float) /\
  (exists seg,
     Segmented.segments_effect (all_of_length 10%Q) (Some (recorded_raw 1)) 0%Q
     !! 0%nat = Some seg /\
     let forward := Segmented.mask_path false false 1 0%Q 0 seg in
     let backward := Segmented.mask_path false false (-1) 0%Q 0 seg in
     (Segmented.dashoffset_at backward 0 == 10)%Q /\
     (Segmented.dashoffset_at forward (0 - 0) == 0)%Q /\
     ~ (Segmented.dashoffset_at backward 0
        == Segmented.dashoffset_at forward (0 - 0))%Q).
Proof.
  split.
  - vm_compute. repeat split; reflexivity.
  - eexists. split; [reflexivity|].
    split; [vm_compute; reflexivity|]. split; [vm_compute; reflexivity|].
    intros H. vm_compute in H. discriminate.
Qed.

(** ** The controller: sessions *)

(** Unfold the operations of the player in [E]. *)
Ltac player_compute_in E :=
  cbv beta iota zeta delta
    [fire run_callback nextTick setStep setDirection setData
     controller_effect arm setTimeout clearTimeout drop_timer
     with_now with_mounted with_data with_step with_direction with_timer
     with_queue with_startTimer with_request with_aborted
     now mounted jsonUrl data step direction controller aborted startTimer
     timer inflight queue nextId nextReq timer_id due callback
     exec loaded mount fetch_effect fetch_cleanup on_json settle with_jsonUrl
     List.filter app negb fst snd] in E.

Ltac player_fields :=
  cbn [now mounted jsonUrl data step direction controller aborted startTimer
       timer inflight queue nextId nextReq timer_id due callback
       existsb is_start orb].

Ltac finish_player :=
  player_fields; repeat split; try reflexivity; try lia;
  try (left; reflexivity);
  try (right; eexists; split; [reflexivity|]; player_fields;
       split; [reflexivity|lia]).

Section Sessions.
Context {num : Type}.
Variable v : Edition.
Variable cfg : Config.
Variable json : Json num.

Lemma Started_fire (t0 : Z) (p p' : Player num) (t : Timer) :
  Started json p ->
  earliest (queue p) = Some t ->
  fire v cfg p = Some p' ->
  Started json p' /\ lawful_firing json t0 (callback t) p p'.
Proof.
  intros (Hm & Hdata & Hdir & Hstep & Hq) Ht Hfire.
  destruct Hq as [Hq | (t' & Hq & Htimer & Hcb)].
  { rewrite Hq in Ht. discriminate. }
  rewrite Hq in Ht. cbn [earliest] in Ht. injection Ht as <-.
  unfold fire in Hfire. rewrite Hq in Hfire. cbn [earliest] in Hfire.
  injection Hfire as Hp'. symmetry in Hp'.
  destruct p as [nw mt url dt st dir ctl ab stt tm fl q nid nrq].
  cbn [now mounted data step direction timer queue nextId] in *.
  subst mt dt q tm.
  destruct t' as [id dl cb]. cbn [timer_id due callback] in *.
  unfold Started, lawful_firing, controller_timer_ok, start_pending.
  player_compute_in Hp'. rewrite Nat.eqb_refl in Hp'.
  destruct cb as [|s d n|x]; [contradiction| |]; player_compute_in Hp'.
  - destruct Hcb as (-> & -> & ->).
    destruct Hdir as [-> | ->].
    + change (1 =? 1) with true in Hp'. cbv iota in Hp'.
      destruct (Z.ltb_spec st (total_of json - 1)).
      * assert ((st + 1 =? st) = false) as Hne by (apply Z.eqb_neq; lia).
        rewrite Hne in Hp'. subst p'. finish_player.
      * destruct v, (loop cfg); subst p'; finish_player.
    + change (-1 =? 1) with false in Hp'. cbv iota in Hp'.
      rewrite Z.gtb_ltb in Hp'.
      destruct (Z.ltb_spec 0 st).
      * assert ((st - 1 =? st) = false) as Hne by (apply Z.eqb_neq; lia).
        rewrite Hne in Hp'. subst p'. finish_player.
      * subst p'. finish_player.
  - assert ((x =? dir) = false) as Hne by (apply Z.eqb_neq; lia).
    rewrite Hne in Hp'. subst p'. finish_player.
Qed.

Lemma Waiting_fire (t0 : Z) (p p' : Player num) :
  1 <= total_of json ->
  Waiting json t0 p ->
  fire v cfg p = Some p' ->
  (exists t, earliest (queue p) = Some t /\ callback t = cb_setStep0) /\
  Started json p' /\ lawful_firing json t0 cb_setStep0 p p'.
Proof.
  intros Htotal (Hm & Hdata & Hstep & Hdir & Hnow & i & j & dj & Hq & Hij
                 & Htimer & Hdue) Hfire.
  assert (earliest (queue p)
          = Some {| timer_id := i; due := t0 + 500; callback := cb_setStep0 |})
    as Hfirst.
  { rewrite Hq. cbn [earliest due].
    destruct (Z.ltb_spec dj (t0 + 500)); [lia|reflexivity]. }
  unfold fire in Hfire. rewrite Hfirst in Hfire.
  injection Hfire as Hp'. symmetry in Hp'.
  split; [eexists; split; [exact Hfirst|reflexivity]|].
  destruct p as [nw mt url dt st dir ctl ab stt tm fl q nid nrq].
  cbn [now mounted data step direction timer queue nextId] in *.
  subst mt dt q tm st dir nw.
  unfold Started, lawful_firing, controller_timer_ok, start_pending.
  player_compute_in Hp'. rewrite Nat.eqb_refl in Hp'.
  assert ((j =? i)%nat = false) as Hji by (apply Nat.eqb_neq; congruence).
  rewrite Hji in Hp'. change (0 =? -1) with false in Hp'.
  player_compute_in Hp'. rewrite Nat.eqb_refl in Hp'. cbv iota in Hp'.
  subst p'. finish_player.
Qed.

Lemma total_positive_paths :
  1 <= total_of json -> exists l, paths json = Some l.
Proof.
  unfold total_of. destruct (paths json) as [l|]; [eauto|].
  cbn. lia.
Qed.

Lemma loaded_Waiting (url : string) (t0 : Z) (p0 : Player num) :
  1 <= total_of json ->
  500 <= duration cfg + delay cfg ->
  loaded v cfg url json t0 = Some p0 ->
  Waiting json t0 p0.
Proof.
  intros Htotal Hint Hload.
  destruct (total_positive_paths Htotal) as [l Hl].
  unfold loaded, exec in Hload.
  destruct (in_order t0 (mount (Some url))); [|discriminate].
  destruct (bool_decide (0%nat ∈ inflight (mount (Some url)))) eqn:Hin;
    [|discriminate].
  cbn [andb] in Hload. injection Hload as Hp0. symmetry in Hp0.
  apply bool_decide_eq_true in Hin.
  unfold mount, fetch_effect in Hin, Hp0. cbn [jsonUrl] in Hin, Hp0.
  destruct (str_truthy (Some url)).
  2:{ cbn in Hin. now apply elem_of_nil in Hin. }
  clear Hin. unfold Waiting.
  destruct v; player_compute_in Hp0; rewrite Hl in Hp0;
    rewrite ?(bool_decide_eq_false_2 (0%nat ∈ [])) in Hp0
      by apply not_elem_of_nil;
    player_compute_in Hp0; subst p0; player_fields;
    (repeat split; try reflexivity;
     exists 0%nat, 1%nat, (t0 + 0 `max` (duration cfg + delay cfg));
     repeat split; try reflexivity; lia).
Qed.

(** Every state of a session on a document of at least one stroke, played
    with a tick interval of 500 ms or more, is waiting for the start or
    started. *)
Lemma session_invariant (url : string) (t0 : Z) (p0 p : Player num) :
  1 <= total_of json ->
  500 <= duration cfg + delay cfg ->
  loaded v cfg url json t0 = Some p0 ->
  session v cfg p0 p ->
  Waiting json t0 p \/ Started json p.
Proof.
  intros Htotal Hint Hload Hs. induction Hs as [|p p' _ IH Hfire].
  - left. eapply loaded_Waiting; eassumption.
  - right. destruct IH as [Hw | Hst].
    + now apply (Waiting_fire t0 p p' Htotal Hw Hfire).
    + destruct (earliest (queue p)) as [t|] eqn:Ht.
      * now apply (Started_fire t0 p p' t Hst Ht Hfire).
      * unfold fire in Hfire. rewrite Ht in Hfire. discriminate.
Qed.
End Sessions.

Section SessionFacts.
Context {num : Type}.
Variable v : Edition.
Variable cfg : Config.
Variable json : Json num.

Lemma session_after_timeouts (p0 p : Player num) (n : nat) :
  session v cfg p0 p -> session v cfg p0 (after_timeouts v cfg n p).
Proof.
  revert p. induction n as [|n IH]; intros p Hs; cbn [after_timeouts].
  - exact Hs.
  - destruct (fire v cfg p) as [p'|] eqn:Hfire; [|exact Hs].
    apply IH. eapply session_fire; eassumption.
Qed.

Lemma Started_no_start (p : Player num) :
  Started json p -> start_pending p = false.
Proof.
  intros (_ & _ & _ & _ & [Hq | (t & Hq & _ & Hcb)]);
    unfold start_pending; rewrite Hq; cbn [existsb]; [reflexivity|].
  unfold is_start. destruct (callback t); [contradiction| |]; reflexivity.
Qed.
End SessionFacts.

(** C2, for a document of at least one stroke played with a tick interval
    [duration + delay] of 500 ms or more.  In every state of a session
    [step] is in [[-1, strokeCount - 1]] and [direction] is 1 or -1; once
    [step] is 0 or more the start timer is no longer pending; and a timer
    that fires does one of three things.  A tick leaves [direction] alone
    and takes [step] up by 1 (forward, below the last stroke), down by 1
    (backward, above 0) or nowhere (at the two extremes).  The start timer
    fires at 500 ms after the load, with [step = -1], and sets [step] to 0.
    A dwell timer leaves [step] alone and sets [direction] to -1 at
    [step = strokeCount - 1] or to 1 at [step = 0]. *)
Theorem controller_steps_by_one {num : Type} (v : Edition) (cfg : Config)
    (url : string) (json : Json num) (t0 : Z) (p0 p : Player num) :
  1 <= total_of json ->
  500 <= duration cfg + delay cfg ->
  loaded v cfg url json t0 = Some p0 ->
  session v cfg p0 p ->
  -1 <= step p <= total_of json - 1 /\
  (direction p = 1 \/ direction p = -1) /\
  (0 <= step p -> start_pending p = false) /\
  (forall t p', earliest (queue p) = Some t -> fire v cfg p = Some p' ->
     lawful_firing json t0 (callback t) p p').
Proof.
  intros Htotal Hint Hload Hs.
  destruct (session_invariant v cfg json url t0 p0 p Htotal Hint Hload Hs)
    as [Hw | Hst].
  - pose proof Hw as (_ & _ & Hstep & Hdir & _).
    split; [lia|]. split; [now left|]. split; [lia|].
    intros t p' Ht Hfire.
    destruct (Waiting_fire v cfg json t0 p p' Htotal Hw Hfire)
      as ((t' & Ht' & Hcb) & _ & Hlaw).
    rewrite Ht in Ht'. injection Ht' as ->. now rewrite Hcb.
  - pose proof Hst as (_ & _ & Hdir & Hstep & _).
    split; [lia|]. split; [exact Hdir|]. split.
    + intros _. now apply (Started_no_start json).
    + intros t p' Ht Hfire.
      now apply (Started_fire v cfg json t0 p p' t Hst Ht Hfire).
Qed.

Lemma controller_steps_by_one_witness :
  -1 <= step (after_timeouts Abortable DEFAULT_CONFIG 2
                (demo_player Abortable DEFAULT_CONFIG 3))
     <= total_of (plain_document 3) - 1.
Proof.
  apply (controller_steps_by_one Abortable DEFAULT_CONFIG "signature.json"
           (plain_document 3) 0 (demo_player Abortable DEFAULT_CONFIG 3)).
  - vm_compute. discriminate.
  - vm_compute. discriminate.
  - vm_compute. reflexivity.
  - apply session_after_timeouts. apply session_here.
Defined.

(** The claim C2 as the specification words it fails in two ways.  For a
    document without strokes the start timer sets [step] to 0, above
    [strokeCount - 1 = -1].  And with a tick interval below 500 ms, here
    [{ duration: 100, delay: 100 }] and three strokes, two ticks come before
    the start timer, which then takes [step] from 1 back to 0. *)
Lemma step_leaves_its_range :
  (loaded Abortable DEFAULT_CONFIG "signature.json" (plain_document 0) 0
   = Some (demo_player Abortable DEFAULT_CONFIG 0) /\
   total_of (plain_document 0) = 0 /\
   step (after_timeouts Abortable DEFAULT_CONFIG 1
           (demo_player Abortable DEFAULT_CONFIG 0)) = 0 /\
   ~ (-1 <= step (after_timeouts Abortable DEFAULT_CONFIG 1
                    (demo_player Abortable DEFAULT_CONFIG 0))
         <= total_of (plain_document 0) - 1)) /\
  (loaded Abortable quick "signature.json" (plain_document 3) 0
   = Some (demo_player Abortable quick 3) /\
   let before := after_timeouts Abortable quick 2 (demo_player Abortable quick 3) in
   let after := after_timeouts Abortable quick 3 (demo_player Abortable quick 3) in
   callback <$> earliest (queue before) = Some cb_setStep0 /\
   step before = 1 /\ direction before = 1 /\
   now after = 500 /\ step after = 0).
Proof.
  split.
  - split; [vm_compute; reflexivity|]. split; [vm_compute; reflexivity|].
    assert (step (after_timeouts Abortable DEFAULT_CONFIG 1
                    (demo_player Abortable DEFAULT_CONFIG 0)) = 0) as ->
      by (vm_compute; reflexivity).
    split; [reflexivity|]. vm_compute. intros [_ H]. now apply H.
  - vm_compute. repeat split; reflexivity.
Qed.

(** ** The controller: the end of the forward pass *)

Section Halting.
Context {num : Type}.
Variable v : Edition.
Variable cfg : Config.
Variable json : Json num.

Lemma no_timer_no_change (p : Player num) (n : nat) :
  queue p = [] -> after_timeouts v cfg n p = p.
Proof.
  intros Hq. destruct n as [|n]; cbn [after_timeouts]; [reflexivity|].
  unfold fire. now rewrite Hq.
Qed.

(** With [loop = false], the tick that fires at the last stroke in the
    forward direction, the start timer no longer pending, schedules
    nothing and changes nothing, and nothing happens afterwards. *)
Lemma end_of_write_halts (p p' : Player num) (t : Timer) (s d n : Z) :
  v <> Legacy -> loop cfg = false ->
  Started json p ->
  direction p = 1 -> step p = total_of json - 1 ->
  earliest (queue p) = Some t -> callback t = cb_nextTick s d n ->
  fire v cfg p = Some p' ->
  queue p' = [] /\ step p' = step p /\ direction p' = direction p /\
  fire v cfg p' = None /\
  forall k, after_timeouts v cfg k p' = p'.
Proof.
  intros Hv Hloop (Hm & Hdata & _ & _ & Hq) Hdir Hstep Ht Hcb Hfire.
  destruct Hq as [Hq | (t' & Hq & Htimer & Hok)].
  { rewrite Hq in Ht. discriminate. }
  rewrite Hq in Ht. cbn [earliest] in Ht. injection Ht as <-.
  unfold fire in Hfire. rewrite Hq in Hfire. cbn [earliest] in Hfire.
  injection Hfire as Hp'. symmetry in Hp'.
  unfold controller_timer_ok in Hok. rewrite Hcb in *.
  destruct Hok as (-> & -> & ->).
  destruct p as [nw mt url dt st dir ctl ab stt tm fl q nid nrq].
  cbn [now mounted data step direction timer queue nextId] in *.
  subst mt dt q tm dir.
  player_compute_in Hp'. rewrite Nat.eqb_refl in Hp'.
  change (1 =? 1) with true in Hp'. cbv iota in Hp'.
  destruct (Z.ltb_spec st (total_of json - 1)); [lia|].
  rewrite Hloop in Hp'.
  assert (queue p' = []) as Hq' by (destruct v; [| |congruence]; now subst p').
  repeat split.
  - exact Hq'.
  - destruct v; [| |congruence]; now subst p'.
  - destruct v; [| |congruence]; now subst p'.
  - unfold fire. now rewrite Hq'.
  - intros k. now apply no_timer_no_change.
Qed.

(** In a session on a document of at least one stroke, played with a tick
    interval of 500 ms or more, the halt is permanent. *)
Lemma session_halts_for_good (url : string) (t0 : Z) (p0 p p' : Player num)
    (t : Timer) (s d n : Z) :
  v <> Legacy -> loop cfg = false ->
  1 <= total_of json -> 500 <= duration cfg + delay cfg ->
  loaded v cfg url json t0 = Some p0 -> session v cfg p0 p ->
  direction p = 1 -> step p = total_of json - 1 ->
  earliest (queue p) = Some t -> callback t = cb_nextTick s d n ->
  fire v cfg p = Some p' ->
  queue p' = [] /\ step p' = step p /\ direction p' = direction p /\
  fire v cfg p' = None /\
  forall k, after_timeouts v cfg k p' = p'.
Proof.
  intros Hv Hloop Htotal Hint Hload Hs Hdir Hstep Ht Hcb Hfire.
  destruct (session_invariant v cfg json url t0 p0 p Htotal Hint Hload Hs)
    as [(_ & _ & Hw & _) | Hst]; [lia|].
  eapply end_of_write_halts; eassumption.
Qed.
End Halting.

(** C5, at the input where the program departs from it.  With
    [{ loop: false, duration: 100, delay: 0 }] and two strokes the ticks
    outrun the 500 ms start timer: the tick at time 300 finds [step = 1], the
    last stroke, in the forward direction and schedules nothing, yet at time
    500 the start timer, still pending, sets [step] back to 0 and the
    controller effect arms a tick again.  The controller of
    [src/unnamed/part_000] does the same; the second program of
    [src/signature-player.js] has no [loop] switch and schedules the
    reversal at the last stroke whatever the options. *)
Theorem quick_player_restarts_after_halting :
  loaded Abortable quick_once "signature.json" (plain_document 2) 0
  = Some (demo_player Abortable quick_once 2) /\
  (let p0 := demo_player Abortable quick_once 2 in
   let last_tick := after_timeouts Abortable quick_once 2 p0 in
   let halted := after_timeouts Abortable quick_once 3 p0 in
   let restarted := after_timeouts Abortable quick_once 4 p0 in
   earliest (queue last_tick)
   = Some {| timer_id := 3; due := 300; callback := cb_nextTick 1 1 2 |} /\
   observable halted
   = (Some (plain_document 2), 1, 1,
      [ {| timer_id := 0; due := 500; callback := cb_setStep0 |} ]) /\
   observable restarted
   = (Some (plain_document 2), 0, 1,
      [ {| timer_id := 4; due := 600; callback := cb_nextTick 0 1 2 |} ])) /\
  (let p0 := demo_player Unabortable quick_once 2 in
   step (after_timeouts Unabortable quick_once 3 p0) = 1 /\
   step (after_timeouts Unabortable quick_once 4 p0) = 0) /\
  (let p0 := demo_player Legacy CONFIG 2 in
   let at_end := after_timeouts Legacy CONFIG 3 p0 in
   let reversed := after_timeouts Legacy CONFIG 4 p0 in
   step at_end = 1 /\ direction at_end = 1 /\
   callback <$> queue at_end = [cb_setDirection (-1)] /\
   direction reversed = -1).
Proof.
  vm_compute. repeat split; reflexivity.
Qed.

(** ** The controller: teardown before the document arrives *)

Section Teardown.
Context {num : Type}.
Variable cfg : Config.

Lemma unmount_before_response (url : option string) (t : Z) (p : Player num) :
  exec Abortable cfg (ev_unmount t) (mount url) = Some p -> TornDown p.
Proof.
  unfold exec. destruct (in_order t (mount url) && mounted (mount url));
    [|discriminate].
  intros [= <-]. unfold mount, fetch_effect. cbn [jsonUrl].
  destruct (str_truthy url); unfold TornDown;
    cbv beta iota zeta delta
      [fetch_cleanup clearTimeout with_now with_mounted with_queue
       with_startTimer with_request with_aborted drop_timer
       now mounted jsonUrl data step direction controller aborted startTimer
       timer inflight queue nextId nextReq List.filter];
    repeat split; try reflexivity.
  - intros rid Hrid. exact Hrid.
  - intros rid Hrid. now apply elem_of_nil in Hrid.
Qed.

Lemma on_json_aborted (rid : nat) (json : Json num) (p : Player num) :
  rid ∈ aborted p -> on_json Abortable cfg rid json p = p.
Proof.
  intros Hin. unfold on_json. now rewrite (bool_decide_eq_true_2 _ Hin).
Qed.

Lemma TornDown_exec (e : Event num) (p p' : Player num) :
  TornDown p -> exec Abortable cfg e p = Some p' -> TornDown p'.
Proof.
  intros (Hm & Hdata & Hstep & Hdir & Hq & Hab) Hexec.
  destruct e as [|rid json time|rid time|url time|time]; unfold exec in Hexec.
  - unfold fire in Hexec. rewrite Hq in Hexec. discriminate.
  - destruct (in_order time p); [|discriminate].
    destruct (bool_decide (rid ∈ inflight p)) eqn:Hin; [|discriminate].
    cbn [andb] in Hexec. injection Hexec as <-.
    apply bool_decide_eq_true in Hin. apply Hab in Hin.
    rewrite (bool_decide_eq_true_2 _ Hin).
    unfold TornDown. cbn. repeat split; try assumption.
    intros r Hr. apply Hab. apply list_elem_of_In in Hr.
    apply List.filter_In in Hr as [Hr _]. now apply list_elem_of_In.
  - destruct (in_order time p); [|discriminate].
    destruct (bool_decide (rid ∈ inflight p)); [|discriminate].
    cbn [andb] in Hexec. injection Hexec as <-.
    unfold TornDown. cbn. repeat split; try assumption.
    intros r Hr. apply Hab. apply list_elem_of_In in Hr.
    apply List.filter_In in Hr as [Hr _]. now apply list_elem_of_In.
  - rewrite Hm, andb_false_r in Hexec. discriminate.
  - rewrite Hm, andb_false_r in Hexec. discriminate.
Qed.

(** In the program with the abortable fetch, a player torn down before
    its document arrived stays as it is whatever happens next: its late
    response is dropped, [step] stays -1 and no timer is ever pending. *)
Lemma abortable_teardown_is_final (url : option string) (t : Z)
    (es : list (Event num)) (p p' : Player num) :
  exec Abortable cfg (ev_unmount t) (mount url) = Some p ->
  run Abortable cfg es p = Some p' ->
  observable p' = (None, -1, 1, []).
Proof.
  intros Hun Hrun.
  assert (TornDown p') as (_ & Hdata & Hstep & Hdir & Hq & _).
  { apply unmount_before_response in Hun. revert p Hun Hrun.
    induction es as [|e es IH]; intros p Htd Hrun; cbn [run] in Hrun.
    - now injection Hrun as <-.
    - destruct (exec Abortable cfg e p) as [p1|] eqn:He; [|discriminate].
      eapply IH; [|exact Hrun]. eapply TornDown_exec; eassumption. }
  unfold observable. now rewrite Hdata, Hstep, Hdir, Hq.
Qed.

(** Likewise when the URL changes before the document of the old URL
    arrived: the late response to the old request changes nothing. *)
Lemma abortable_stale_response_dropped (url url' : option string) (t t' : Z)
    (json : Json num) (p p' : Player num) :
  str_truthy url = true ->
  exec Abortable cfg (ev_setUrl url' t) (mount url) = Some p ->
  url' <> url ->
  exec Abortable cfg (ev_response 0 json t') p = Some p' ->
  observable p' = observable p /\ observable p = (None, -1, 1, []).
Proof.
  intros Hurl Hp Hne Hresp. unfold exec in Hp.
  destruct (in_order t (mount url) && mounted (mount url)); [|discriminate].
  assert (jsonUrl (mount (num := num) url) = url) as Hu.
  { unfold mount, fetch_effect. cbn [jsonUrl]. now destruct (str_truthy url). }
  rewrite Hu, bool_decide_eq_false_2 in Hp by exact Hne. clear Hu.
  apply (inj Some) in Hp. symmetry in Hp.
  unfold exec in Hresp.
  destruct (in_order t' p); [|discriminate].
  destruct (bool_decide (0%nat ∈ inflight p)) eqn:Hin; [|discriminate].
  cbn [andb] in Hresp. apply (inj Some) in Hresp. symmetry in Hresp.
  apply bool_decide_eq_true in Hin.
  unfold mount, fetch_effect in Hp. cbn [jsonUrl] in Hp.
  rewrite Hurl in Hp. player_compute_in Hp.
  unfold fetch_effect in Hp. cbn [jsonUrl with_jsonUrl] in Hp.
  destruct (str_truthy url'); player_compute_in Hp; subst p;
    cbn [inflight] in Hin.
  all: unfold on_json in Hresp; cbn [aborted settle with_request with_now]
         in Hresp;
    rewrite (bool_decide_eq_true_2 (0%nat ∈ [0%nat])) in Hresp
      by apply list_elem_of_here;
    subst p'; split; reflexivity.
Qed.
End Teardown.

(** C9, at the input where a program of the repository departs from it.
    The program of [src/unnamed/part_000] (and the second program of
    [src/signature-player.js]) cannot abort its fetch and returns no cleanup
    from the fetch effect.  Torn down at time 100 with the response arriving
    at time 200, its [then] callback still registers the 500 ms start timer,
    which stays pending until time 700 (React drops the two state updates of
    the unmounted component, so [data] and [step] stay as they were).  When
    instead the URL changes at time 100, the response to the old request is
    applied: [data] becomes the old document and the start timer sets [step]
    to 0.  The first program of [src/signature-player.js], on the same
    events, drops the response and schedules nothing. *)
Theorem late_response_of_unabortable_fetch :
  (exists p : Player float,
     run Unabortable DEFAULT_CONFIG
       [ev_unmount 100; ev_response 0 (plain_document 2) 200]
       (mount (Some "signature.json")) = Some p /\
     mounted p = false /\
     pending p = [(700, cb_setStep0)] /\
     data p = None /\ step p = -1) /\
  (exists p : Player float,
     run Unabortable DEFAULT_CONFIG
       [ev_setUrl (Some "other.json") 100;
        ev_response 0 (plain_document 2) 200; ev_timeout]
       (mount (Some "signature.json")) = Some p /\
     jsonUrl p = Some "other.json" /\
     data p = Some (plain_document 2) /\ now p = 700 /\ step p = 0) /\
  (exists p : Player float,
     run Legacy CONFIG
       [ev_unmount 100; ev_response 0 (plain_document 2) 200]
       (mount (Some "signature.json")) = Some p /\
     pending p = [(700, cb_setStep0)]) /\
  (exists p : Player float,
     run Abortable DEFAULT_CONFIG
       [ev_unmount 100; ev_response 0 (plain_document 2) 200]
       (mount (Some "signature.json")) = Some p /\
     observable p = (None, -1, 1, [])) /\
  (exists p : Player float,
     run Abortable DEFAULT_CONFIG
       [ev_setUrl (Some "other.json") 100;
        ev_response 0 (plain_document 2) 200]
       (mount (Some "signature.json")) = Some p /\
     observable p = (None, -1, 1, [])).
Proof.
  repeat split; eexists; (split; [vm_compute; reflexivity|]);
    vm_compute; repeat split; reflexivity.
Qed.

(** ** The end-to-end scenarios of the specification *)

(** Scenario A: three strokes, no recorded traces, [loop = false]: [step]
    goes -1, 0, 1, 2 and the player halts with no timer pending; the strokes
    passed and the stroke reached are opaque. *)
Example scenario_A :
  let p0 := demo_player Abortable once 3 in
  map (fun n => step (after_timeouts Abortable once n p0)) (seq 0 7)
  = [-1; 0; 1; 2; 2; 2; 2] /\
  queue (after_timeouts Abortable once 4 p0) = [] /\
  map Segmented.opacity_of
    (Segmented.strokes_view (all_of_length 0%float) (plain_document 3) 2 1
       1000%float (fun i => pretty i))
  = [1; 1; 1].
Proof. vm_compute. repeat split; reflexivity. Qed.

(** Scenario B: a recorded stroke of two raw strokes of equal measured
    length, stroke duration 1000: each segment gets 500 ms and the second
    starts at 500 ms. *)
Example scenario_B :
  map (fun seg => (Segmented.seg_duration seg, Segmented.seg_delay seg))
    (Segmented.segments_effect (all_of_length 7.5%float)
       (Some (recorded_raw 2)) 1000%float)
  = [(500, 0); (500, 500)]%float.
Proof. vm_compute. reflexivity. Qed.

(** Scenario C: [loop = true], two strokes: at [step = 1] forward the
    direction switches after the write dwell, [step] descends to 0, the
    direction switches back after the erase dwell, and the next tick takes
    [step] to 1. *)
Example scenario_C :
  let p0 := demo_player Abortable DEFAULT_CONFIG 2 in
  map (fun n => let p := after_timeouts Abortable DEFAULT_CONFIG n p0 in
                (now p, step p, direction p)) (seq 0 9)
  = [ (0, -1, 1); (500, 0, 1); (1600, 1, 1); (2700, 1, 1); (4700, 1, -1);
      (5800, 0, -1); (6900, 0, -1); (7400, 0, 1); (8500, 1, 1) ].
Proof. vm_compute. reflexivity. Qed.

(** * Further properties of the programs *)

(** ** The measurement effect and its segments *)

Section Measured.
Context {num : Type} `{Number num}.
Variable getTotalLength : option string -> num.


Lemma allocate_widths (totalLen D acc : num)
    (measured : list Segmented.Measured) :
  map Segmented.seg_width (Segmented.allocate totalLen D acc measured)
  = map Segmented.m_width measured.
Proof.
  revert acc. induction measured as [|s rest IH]; intros acc; simpl.
  - reflexivity.
  - now rewrite IH.
Qed.



End Measured.

(** ** The stroke width of a segment *)

Lemma num_or_truthy {num : Type} `{Number num} (a : option num) (b : num) :
  ntruthy b = true -> ntruthy (num_or a b) = true.
Proof.
  intros Hb. unfold num_or. destruct a as [x|]; [|exact Hb].
  destruct (ntruthy x) eqn:Hx; [exact Hx|exact Hb].
Qed.

Lemma float_twelve_truthy : ntruthy (num := float) (nlit 12) = true.
Proof. vm_compute. reflexivity. Qed.

(** X2. In the arithmetic of the program, the stroke width of a measured
    segment is the width of its raw stroke if that is a number other than
    0 and NaN, else the width of the entry if that is one, else 12; so it
    is never 0 and never NaN, and the same holds for the mask width of the
    single-mask renderer ([width || 12]). *)
Theorem stroke_width_is_never_falsy (getTotalLength : option string -> float)
    (r : RecordedStroke float) (D : float) :
  map Segmented.seg_width (Segmented.segments_effect getTotalLength (Some r) D)
  = map (fun s => num_or (raw_width s) (num_or (rec_width r) 12%float))
        (Segmented.raw_of r) /\
  Forall (fun seg => PrimFloat.eqb (Segmented.seg_width seg) 0 = false /\
                     PrimFloat.is_nan (Segmented.seg_width seg) = false)
         (Segmented.segments_effect getTotalLength (Some r) D) /\
  PrimFloat.eqb (SingleMask.maskWidth_of (Some r)) 0 = false /\
  PrimFloat.is_nan (SingleMask.maskWidth_of (Some r)) = false.
Proof.
  assert (forall x : float, ntruthy x = true ->
            PrimFloat.eqb x 0 = false /\ PrimFloat.is_nan x = false) as Hsplit.
  { intros x Hx. cbn in Hx. apply andb_true_iff in Hx as [H1 H2].
    apply negb_true_iff in H1, H2. now split. }
  assert (map Segmented.seg_width
            (Segmented.segments_effect getTotalLength (Some r) D)
          = map (fun s => num_or (raw_width s) (num_or (rec_width r) (nlit 12)))
              (Segmented.raw_of r)) as Hw.
  { unfold Segmented.segments_effect. rewrite allocate_widths, map_map.
    reflexivity. }
  split; [exact Hw|]. split.
  - apply Forall_forall. intros seg Hseg. apply Hsplit.
    assert (Segmented.seg_width seg
            ∈ map Segmented.seg_width
                (Segmented.segments_effect getTotalLength (Some r) D)) as Hin
      by (apply list_elem_of_fmap; eauto).
    rewrite Hw in Hin. apply list_elem_of_fmap in Hin as (s & -> & _).
    apply num_or_truthy, num_or_truthy, float_twelve_truthy.
  - apply Hsplit. unfold SingleMask.maskWidth_of.
    apply num_or_truthy, float_twelve_truthy.
Qed.

(** ** What is rendered at the two ends of the forward pass *)

Lemma Forall_imap {A B : Type} (P : B -> Prop) (f : nat -> A -> B)
    (l : list A) :
  (forall i x, P (f i x)) -> Forall P (imap f l).
Proof.
  revert f. induction l as [|x l IH]; intros f Hf; cbn [imap].
  - constructor.
  - constructor; [apply Hf|]. apply IH. intros i y. apply Hf.
Qed.

(** X5. Before the start transition ([step = -1]) nothing of the signature
    is visible.  [SignaturePlayer] renders [null] exactly when no document
    is loaded; with a document it renders the [svg] with the document's
    [viewBox] and one element per stroke, every one of them with opacity 0,
    whatever the direction and whether or not the strokes have recorded
    traces. *)
Theorem nothing_visible_before_start {num : Type} `{Number num}
    (getTotalLength : option string -> num) (maskId : nat -> string)
    (D : num) (p : Player num) :
  step p = -1 ->
  match SignaturePlayer_render getTotalLength maskId D p with
  | None => data p = None
  | Some svg =>
      exists json,
        data p = Some json /\
        svg_viewBox svg = viewBox json /\
        length (svg_children svg) = length (default [] (paths json)) /\
        Forall (fun e => Segmented.opacity_of e = 0) (svg_children svg)
  end.
Proof.
  intros Hstep. unfold SignaturePlayer_render.
  destruct (data p) as [json|]; [|reflexivity].
  exists json. split; [reflexivity|]. cbn [svg_viewBox svg_children].
  split; [reflexivity|]. unfold Segmented.strokes_view. split.
  - apply length_imap.
  - apply Forall_imap. intros idx path. rewrite Hstep.
    unfold Segmented.AnimatedPath_measured, Segmented.AnimatedPath.
    assert ((Z.of_nat idx >? -1) = true) as -> by (apply Z.gtb_lt; lia).
    assert ((Z.of_nat idx <? -1) = false) as -> by (apply Z.ltb_ge; lia).
    assert ((Z.of_nat idx =? -1) = false) as -> by (apply Z.eqb_neq; lia).
    destruct (negb _ || _); reflexivity.
Qed.

Lemma nothing_visible_before_start_witness :
  match SignaturePlayer_render (fun _ => 0%float) pretty 1000%float
          (demo_player Abortable DEFAULT_CONFIG 2) with
  | None => data (demo_player Abortable DEFAULT_CONFIG 2) = None
  | Some svg =>
      exists json,
        data (demo_player Abortable DEFAULT_CONFIG 2) = Some json /\
        svg_viewBox svg = viewBox json /\
        length (svg_children svg) = length (default [] (paths json)) /\
        Forall (fun e => Segmented.opacity_of e = 0) (svg_children svg)
  end.
Proof.
  apply (nothing_visible_before_start (fun _ => 0%float) pretty 1000%float
           (demo_player Abortable DEFAULT_CONFIG 2)).
  vm_compute. reflexivity.
Defined.

(** X6. What is rendered at the written end, that is when the direction
    is forward and the last stroke is the current one (or [step] is beyond
    it), the state in which a player that does not loop stays.
    [SignaturePlayer] renders one element per stroke.  A stroke without
    recorded entry is its path with opacity 1.  A stroke with an entry is
    its outline with opacity 1 behind the mask of its measured segments,
    one mask path per segment with the segment's geometry, width and dash
    length: for a stroke before the current one at dash offset 0 and not
    animated, for the current stroke at a dash offset of the whole segment
    length and running [dash] with the duration and the delay of the
    segment.  So every stroke before the current one is fully revealed, an
    untraced current stroke is opaque, and a traced current stroke is being
    written through its mask. *)
Theorem written_end_presentation {num : Type} `{Number num}
    (getTotalLength : option string -> num) (maskId : nat -> string)
    (D : num) (json : Json num) (p : Player num) (idx : nat)
    (path : PathEntry) :
  data p = Some json ->
  total_of json - 1 <= step p ->
  direction p = 1 ->
  default [] (paths json) !! idx = Some path ->
  exists svg,
    SignaturePlayer_render getTotalLength maskId D p = Some svg /\
    length (svg_children svg) = length (default [] (paths json)) /\
    svg_children svg !! idx
    = Some
        match recorded_for json (path_id path) with
        | None =>
            Segmented.FadePath (path_d path)
              (str_or (path_color path) "#000") 1 D
        | Some r =>
            Segmented.MaskedPath (maskId idx)
              (imap (fun i seg =>
                       {| Segmented.mask_key := i;
                          Segmented.mask_d := Segmented.seg_d seg;
                          Segmented.strokeWidth := Segmented.seg_width seg;
                          Segmented.strokeDasharray := Segmented.seg_len seg;
                          Segmented.strokeDashoffset :=
                            if Z.of_nat idx <? step p then nzero
                            else Segmented.seg_len seg;
                          Segmented.animation :=
                            if Z.of_nat idx <? step p
                            then Segmented.animation_none
                            else Segmented.animation_dash
                                   (Segmented.seg_duration seg)
                                   (Segmented.seg_delay seg);
                          Segmented.seg_len_var := Segmented.seg_len seg |})
                    (Segmented.segments_effect getTotalLength (Some r) D))
              (path_d path) (str_or (path_color path) "#000") 1
        end.
Proof.
  intros Hdata Hstep Hdir Hidx. unfold SignaturePlayer_render. rewrite Hdata.
  eexists. split; [reflexivity|]. cbn [svg_children].
  unfold Segmented.strokes_view. split; [apply length_imap|].
  rewrite list_lookup_imap, Hidx, Hdir. cbn [fmap option_fmap option_map].
  f_equal. apply lookup_lt_Some in Hidx. unfold total_of in Hstep.
  unfold Segmented.AnimatedPath_measured, Segmented.AnimatedPath.
  assert ((Z.of_nat idx >? step p) = false) as ->
    by (rewrite Z.gtb_ltb; apply Z.ltb_ge; lia).
  destruct (recorded_for json (path_id path)) as [r|].
  - pose proof (measured_segments_nonempty getTotalLength r D) as Hne.
    destruct (Segmented.segments_effect getTotalLength (Some r) D)
      as [|seg rest] eqn:Hsegs; [congruence|].
    rewrite bool_decide_eq_true_2 by (eexists; reflexivity).
    cbn [negb orb length Z.of_nat Z.eqb]. f_equal.
    apply imap_ext. intros i x _. unfold Segmented.mask_path.
    destruct (Z.of_nat idx <? step p); reflexivity.
  - rewrite bool_decide_eq_false_2 by (intros [x Hx]; discriminate).
    cbn [negb orb]. f_equal.
    destruct (Z.ltb_spec (Z.of_nat idx) (step p)); [reflexivity|].
    assert ((Z.of_nat idx =? step p) = true) as -> by (apply Z.eqb_eq; lia).
    reflexivity.
Qed.

(** The traced first stroke of [traced_document] when the second stroke is
    the current one. *)
Lemma written_end_presentation_witness :
  exists svg,
    SignaturePlayer_render (all_of_length 1%float) pretty 1000%float
      (after_timeouts Abortable once 2
         (default (mount None)
            (loaded Abortable once "signature.json" traced_document 0)))
    = Some svg /\
    length (svg_children svg) = 2%nat /\
    svg_children svg !! 0%nat
    = Some
        (Segmented.MaskedPath "0"
           [ {| Segmented.mask_key := 0;
                Segmented.mask_d := Some "M0 0L1 0";
                Segmented.strokeWidth := 12%float;
                Segmented.strokeDasharray := 1%float;
                Segmented.strokeDashoffset := 0%float;
                Segmented.animation := Segmented.animation_none;
                Segmented.seg_len_var := 1%float |};
             {| Segmented.mask_key := 1;
                Segmented.mask_d := Some "M0 0L2 0";
                Segmented.strokeWidth := 12%float;
                Segmented.strokeDasharray := 1%float;
                Segmented.strokeDashoffset := 0%float;
                Segmented.animation := Segmented.animation_none;
                Segmented.seg_len_var := 1%float |} ]
           "M0 0h10v10h-10z" "#000" 1).
Proof.
  destruct (written_end_presentation (all_of_length 1%float) pretty
              1000%float traced_document
              (after_timeouts Abortable once 2
                 (default (mount None)
                    (loaded Abortable once "signature.json" traced_document
                       0)))
              0 (stroke "0"))
    as (svg & Hrender & Hlength & Hfirst).
  - vm_compute. reflexivity.
  - vm_compute. discriminate.
  - vm_compute. reflexivity.
  - reflexivity.
  - exists svg. split; [exact Hrender|]. split; [exact Hlength|].
    rewrite Hfirst. vm_compute. reflexivity.
Defined.

(** ** A load that fails *)

Section FailedLoad.
Context {num : Type}.
Variable v : Edition.
Variable cfg : Config.

Lemma mount_Idle (url : option string) : Idle (mount (num := num) url).
Proof.
  unfold mount, fetch_effect, Idle. cbn [jsonUrl].
  destruct (str_truthy url); repeat split; reflexivity.
Qed.

Lemma Idle_harmless (e : Event num) (p p' : Player num) :
  Idle p -> harmless e -> exec v cfg e p = Some p' -> Idle p'.
Proof.
  intros (Hm & Hdata & Hstep & Hdir & Hq) He Hexec.
  destruct e as [|rid json time|rid time|url time|time];
    try contradiction; cbn [harmless] in He; unfold exec in Hexec.
  - destruct (in_order time p && bool_decide (rid ∈ inflight p));
      [|discriminate].
    apply (inj Some) in Hexec. subst p'.
    unfold on_json. rewrite He.
    destruct v; try destruct (bool_decide _);
      unfold Idle; cbn; repeat split; assumption.
  - destruct (in_order time p && bool_decide (rid ∈ inflight p));
      [|discriminate].
    apply (inj Some) in Hexec. subst p'.
    unfold Idle; cbn; repeat split; assumption.
  - destruct (in_order time p && mounted p); [|discriminate].
    destruct (bool_decide (url = jsonUrl p));
      apply (inj Some) in Hexec; subst p'.
    { unfold Idle; cbn; repeat split; assumption. }
    unfold Idle, fetch_effect, fetch_cleanup.
    destruct v, (controller (with_now time p)), (startTimer p) eqn:Hstart;
      cbn [with_now with_aborted clearTimeout startTimer with_queue queue
           nextId with_jsonUrl jsonUrl];
      rewrite ?Hstart;
      cbn [with_now with_aborted clearTimeout startTimer with_queue queue
           nextId with_jsonUrl jsonUrl];
      destruct (str_truthy url); cbn; rewrite ?Hq; repeat split; assumption.
Qed.

Lemma Idle_run (es : list (Event num)) (p p' : Player num) :
  Idle p -> Forall harmless es -> run v cfg es p = Some p' -> Idle p'.
Proof.
  intros Hidle Hes. revert p Hidle.
  induction Hes as [|e es He _ IH]; intros p Hidle Hrun; cbn [run] in Hrun.
  - now apply (inj Some) in Hrun; subst.
  - destruct (exec v cfg e p) as [p1|] eqn:Hexec; [|discriminate].
    eapply IH; [|exact Hrun]. eapply Idle_harmless; eassumption.
Qed.
End FailedLoad.

(** X7. Loads that fail leave the player idle for good, in every program
    of the repository.  After any sequence of fetches that were rejected or
    that brought a document without [paths], and of renders with another
    [jsonUrl] (each of which fetches again), the player is mounted with
    [data = null], [step = -1], [direction = 1] and no pending timer; it
    renders nothing, and no timer ever changes it.  A player mounted with
    an empty or missing URL sends no request at all. *)
Theorem failed_load_leaves_player_idle {num : Type} `{Number num}
    (v : Edition) (cfg : Config) (url : option string)
    (es : list (Event num)) (p : Player num) (n : nat)
    (getTotalLength : option string -> num) (maskId : nat -> string)
    (D : num) :
  Forall harmless es ->
  run v cfg es (mount url) = Some p ->
  Idle p /\
  after_timeouts v cfg n p = p /\
  SignaturePlayer_render getTotalLength maskId D p = None /\
  (str_truthy url = false -> inflight (mount (num := num) url) = []).
Proof.
  intros Hes Hrun.
  pose proof (Idle_run v cfg es _ _ (mount_Idle url) Hes Hrun)
    as Hidle.
  split; [exact Hidle|]. destruct Hidle as (_ & Hdata & _ & _ & Hq).
  split; [now apply no_timer_no_change|]. split.
  - unfold SignaturePlayer_render. now rewrite Hdata.
  - intros Hurl. unfold mount, fetch_effect. cbn [jsonUrl]. now rewrite Hurl.
Qed.

(** Three fetches in a row that bring nothing: the first is rejected, the
    second, of another URL, brings a document without [paths], the third is
    rejected after the URL was taken away. *)
Lemma failed_load_leaves_player_idle_witness :
  Idle
    (default (mount None)
       (run (num := float) Unabortable DEFAULT_CONFIG
          [ ev_failure 0 40;
            ev_setUrl (Some "other.json") 50;
            ev_response 1
              {| viewBox := "0 0 1 1"; paths := None;
                 recordedStrokes := None |} 90;
            ev_setUrl (Some "third.json") 100;
            ev_setUrl None 110;
            ev_failure 2 120 ]
          (mount (Some "signature.json")))).
Proof.
  apply (failed_load_leaves_player_idle Unabortable DEFAULT_CONFIG
           (Some "signature.json")
           [ ev_failure 0 40;
             ev_setUrl (Some "other.json") 50;
             ev_response 1
               {| viewBox := "0 0 1 1"; paths := None;
                  recordedStrokes := None |} 90;
             ev_setUrl (Some "third.json") 100;
             ev_setUrl None 110;
             ev_failure 2 120 ]
           _ 5 (all_of_length 0%float) pretty 1000%float).
  - repeat constructor.
  - vm_compute. reflexivity.
Defined.

(** ** Order in every session *)

(** Decide the tests left in the equation [E] of the next state. *)
Ltac decide_tests E v cfg :=
  repeat (first
    [ rewrite Z.gtb_ltb in E
    | match type of E with
      | context [Z.ltb ?a ?b] => destruct (Z.ltb_spec a b)
      | context [Z.eqb ?a ?b] => destruct (Z.eqb_spec a b)
      | context [loop cfg] => destruct (loop cfg)
      | context [match v with Abortable => _ | _ => _ end] => destruct v
      end ];
    cbv iota in E; try lia).

Ltac finish_orderly :=
  unfold Orderly, controller_timer_fresh; player_fields;
  repeat match goal with |- _ /\ _ => split end;
  try reflexivity; try lia;
  try (repeat constructor; cbn; lia);
  try (left; reflexivity);
  try (right; left; eexists; split; [reflexivity|]; player_fields;
       split; [reflexivity|]; repeat split; lia);
  try (right; left; eexists; split; [reflexivity|]; player_fields;
       split; [reflexivity|]; assumption);
  try (right; right; left; eexists; split; reflexivity);
  try (right; right; right; do 2 eexists; split; [reflexivity|];
       player_fields; split; [reflexivity|]; split; [lia|];
       split; [reflexivity|]; repeat split; lia).

Section General.
Context {num : Type}.
Variable v : Edition.
Variable cfg : Config.
Variable json : Json num.

Lemma Orderly_fire (p p' : Player num) :
  Orderly json p ->
  fire v cfg p = Some p' ->
  Orderly json p' /\
  (0 <= step p -> 0 <= step p') /\
  (step p' = step p \/ step p' = step p + 1 \/ step p' = step p - 1 \/
   step p' = 0).
Proof.
  intros (Hm & Hdata & Hdir & Hstep & Hids & Hq) Hfire.
  unfold controller_timer_fresh in Hq.
  destruct p as [nw mt url dt st dir ctl ab stt tm fl q nid nrq].
  cbn [now mounted data step direction timer queue nextId] in *.
  subst mt dt. unfold fire in Hfire. cbn [queue] in Hfire.
  destruct Hq as [-> | [(c & -> & Htm & Hc) | [(s & -> & Hs)
                 | (s & c & -> & Hs & Hne & Htm & Hc)]]].
  - discriminate.
  - (* the timer of the controller effect alone *)
    cbn [earliest] in Hfire. apply (inj Some) in Hfire. symmetry in Hfire.
    destruct c as [idc dlc cbc].
    cbn [timer_id due callback timer step direction] in *. subst tm.
    apply Forall_cons in Hids as [Hidc _]. cbn in Hidc.
    player_compute_in Hfire. rewrite Nat.eqb_refl in Hfire.
    destruct cbc as [|s0 d0 n0|x]; [contradiction| |];
      player_compute_in Hfire.
    + destruct Hc as (-> & -> & ->).
      destruct Hdir as [-> | ->]; decide_tests Hfire v cfg;
        player_compute_in Hfire; rewrite ?Nat.eqb_refl in Hfire;
        player_compute_in Hfire; subst p'; finish_orderly.
    + decide_tests Hfire v cfg;
        player_compute_in Hfire; rewrite ?Nat.eqb_refl in Hfire;
        player_compute_in Hfire; subst p'; finish_orderly.
  - (* the start timer alone *)
    cbn [earliest] in Hfire. apply (inj Some) in Hfire. symmetry in Hfire.
    destruct s as [ids dls cbs]. cbn [timer_id due callback] in *. subst cbs.
    apply Forall_cons in Hids as [Hids _]. cbn in Hids.
    player_compute_in Hfire. rewrite Nat.eqb_refl in Hfire.
    destruct tm as [i|]; decide_tests Hfire v cfg;
      player_compute_in Hfire; subst p'; finish_orderly.
  - (* the start timer and the timer of the controller effect *)
    destruct s as [ids dls cbs]. destruct c as [idc dlc cbc].
    cbn [timer_id due callback timer step direction] in *. subst cbs tm.
    apply Forall_cons in Hids as [Hids Hidc].
    apply Forall_cons in Hidc as [Hidc _]. cbn in Hids, Hidc.
    assert ((ids =? idc)%nat = false) as Hsc by now apply Nat.eqb_neq.
    assert ((idc =? ids)%nat = false) as Hcs
      by (apply Nat.eqb_neq; congruence).
    cbn [earliest due] in Hfire.
    destruct (dlc <? dls); apply (inj Some) in Hfire; symmetry in Hfire;
      player_compute_in Hfire;
      rewrite ?Nat.eqb_refl, ?Hsc, ?Hcs in Hfire; player_compute_in Hfire.
    + destruct cbc as [|s0 d0 n0|x]; [contradiction| |];
        player_compute_in Hfire.
      * destruct Hc as (-> & -> & ->).
        destruct Hdir as [-> | ->]; decide_tests Hfire v cfg;
          player_compute_in Hfire;
          rewrite ?Nat.eqb_refl, ?Hsc, ?Hcs in Hfire;
          player_compute_in Hfire; subst p'; finish_orderly.
      * decide_tests Hfire v cfg;
          player_compute_in Hfire;
          rewrite ?Nat.eqb_refl, ?Hsc, ?Hcs in Hfire;
          player_compute_in Hfire; subst p'; finish_orderly.
    + decide_tests Hfire v cfg;
        player_compute_in Hfire;
        rewrite ?Nat.eqb_refl, ?Hsc, ?Hcs in Hfire;
        player_compute_in Hfire; subst p'; finish_orderly.
Qed.
End General.

Section General2.
Context {num : Type}.
Variable v : Edition.
Variable cfg : Config.
Variable json : Json num.

Lemma loaded_Orderly (url : string) (t0 : Z) (p0 : Player num) :
  loaded v cfg url json t0 = Some p0 ->
  Idle p0 \/ Orderly json p0.
Proof.
  intros Hload. unfold loaded, exec in Hload.
  destruct (in_order t0 (mount (Some url))); [|discriminate].
  destruct (bool_decide (0%nat ∈ inflight (mount (Some url)))) eqn:Hin;
    [|discriminate].
  cbn [andb] in Hload. apply (inj Some) in Hload. symmetry in Hload.
  apply bool_decide_eq_true in Hin.
  unfold mount, fetch_effect in Hin, Hload. cbn [jsonUrl] in Hin, Hload.
  destruct (str_truthy (Some url)).
  2:{ cbn in Hin. now apply elem_of_nil in Hin. }
  clear Hin.
  destruct (paths json) as [l|] eqn:Hl.
  - right.
    destruct v; player_compute_in Hload; rewrite Hl in Hload;
      rewrite ?(bool_decide_eq_false_2 (0%nat ∈ [])) in Hload
        by apply not_elem_of_nil;
      player_compute_in Hload; subst p0; finish_orderly.
  - left.
    destruct v; player_compute_in Hload; rewrite Hl in Hload;
      rewrite ?(bool_decide_eq_false_2 (0%nat ∈ [])) in Hload
        by apply not_elem_of_nil;
      player_compute_in Hload; subst p0; unfold Idle; player_fields;
      repeat split; reflexivity.
Qed.

Lemma session_Orderly (url : string) (t0 : Z) (p0 p : Player num) :
  loaded v cfg url json t0 = Some p0 ->
  session v cfg p0 p ->
  Idle p \/ Orderly json p.
Proof.
  intros Hload Hs. induction Hs as [|p p' _ IH Hfire].
  - eapply loaded_Orderly; eassumption.
  - destruct IH as [(_ & _ & _ & _ & Hq) | Hord].
    + unfold fire in Hfire. rewrite Hq in Hfire. discriminate.
    + right. now apply (Orderly_fire v cfg json p p' Hord Hfire).
Qed.

Lemma Orderly_timers (p : Player num) :
  Orderly json p ->
  (length (controller_timers (queue p)) <= 1)%nat /\
  (length (start_timers (queue p)) <= 1)%nat /\
  (forall t s d n, t ∈ queue p -> callback t = cb_nextTick s d n ->
     s = step p /\ d = direction p /\ n = total_of json).
Proof.
  intros (_ & _ & _ & _ & _ & Hq). unfold controller_timer_fresh in Hq.
  destruct Hq as [-> | [(c & -> & _ & Hc) | [(s & -> & Hs)
                 | (s & c & -> & Hs & _ & _ & Hc)]]];
    unfold controller_timers, start_timers, is_start; cbn [List.filter];
    rewrite ?Hs; cbn [negb length].
  - split; [lia|]. split; [lia|].
    intros t s d n Ht. now apply elem_of_nil in Ht.
  - destruct (callback c) eqn:Hcb; try contradiction; cbn [negb length];
      (split; [lia|]); (split; [lia|]); intros t s d n Ht Hcbt;
      apply list_elem_of_singleton in Ht; subst t; rewrite Hcb in Hcbt;
      try discriminate.
    injection Hcbt as <- <- <-. exact Hc.
  - split; [lia|]. split; [lia|]. intros t s0 d n Ht Hcbt.
    apply list_elem_of_singleton in Ht. subst t. congruence.
  - destruct (callback c) eqn:Hcb; try contradiction; cbn [negb length];
      (split; [lia|]); (split; [lia|]); intros t s0 d0 n0 Ht Hcbt;
      (apply elem_of_cons in Ht as [-> | Ht]; [congruence|]);
      apply list_elem_of_singleton in Ht; subst t; rewrite Hcb in Hcbt;
      try discriminate.
    injection Hcbt as <- <- <-. exact Hc.
Qed.
End General2.

(** X8. Whatever the settings and the document, in every program of the
    repository, a loaded player keeps order.  In every state of a session
    [step] is between -1 and [max 0 (strokeCount - 1)] and [direction] is 1
    or -1; at most one timer of the controller effect and at most one start
    timer are pending; a pending tick holds the current [step] and
    [direction] in its closure; and a timer that fires changes [step] by at
    most 1 or sets it to 0, and never takes it below 0 once it is 0 or
    more. *)
Theorem controller_keeps_order {num : Type} (v : Edition) (cfg : Config)
    (url : string) (json : Json num) (t0 : Z) (p0 p : Player num) :
  loaded v cfg url json t0 = Some p0 ->
  session v cfg p0 p ->
  -1 <= step p <= Z.max 0 (total_of json - 1) /\
  (direction p = 1 \/ direction p = -1) /\
  (length (controller_timers (queue p)) <= 1)%nat /\
  (length (start_timers (queue p)) <= 1)%nat /\
  (forall t s d n, t ∈ queue p -> callback t = cb_nextTick s d n ->
     s = step p /\ d = direction p /\ n = total_of json) /\
  (forall p', fire v cfg p = Some p' ->
     (0 <= step p -> 0 <= step p') /\
     (step p' = step p \/ step p' = step p + 1 \/ step p' = step p - 1 \/
      step p' = 0)).
Proof.
  intros Hload Hs.
  destruct (session_Orderly v cfg json url t0 p0 p Hload Hs)
    as [(_ & _ & Hstep & Hdir & Hq) | Hord].
  - rewrite Hstep, Hdir, Hq.
    cbn [controller_timers start_timers List.filter length].
    split; [lia|]. split; [now left|]. split; [lia|]. split; [lia|]. split.
    + intros t s d n Ht. now apply elem_of_nil in Ht.
    + intros p' Hfire. unfold fire in Hfire. rewrite Hq in Hfire.
      discriminate.
  - pose proof Hord as (_ & _ & Hdir & Hstep & _).
    destruct (Orderly_timers json p Hord) as (Hc & Hst & Hclosure).
    split; [exact Hstep|]. split; [exact Hdir|].
    split; [exact Hc|]. split; [exact Hst|]. split; [exact Hclosure|].
    intros p' Hfire.
    now apply (Orderly_fire v cfg json p p' Hord Hfire).
Qed.

Lemma controller_keeps_order_witness :
  -1 <= step (after_timeouts Abortable quick_once 4
                (demo_player Abortable quick_once 2))
     <= Z.max 0 (total_of (plain_document 2) - 1).
Proof.
  apply (controller_keeps_order Abortable quick_once "signature.json"
           (plain_document 2) 0 (demo_player Abortable quick_once 2)).
  - vm_compute. reflexivity.
  - apply session_after_timeouts. apply session_here.
Defined.

(** ** Unmounting a loaded player *)

Section Unmounted.
Context {num : Type}.
Variable v : Edition.
Variable cfg : Config.








End Unmounted.



(** ** The timeline of a playback *)

Ltac finish_playing :=
  unfold Playing; player_fields;
  repeat match goal with |- _ /\ _ => split end;
  try reflexivity; try lia;
  try (eexists; split; reflexivity).

(** The clock at a timer that fires on time. *)
Ltac clock_at_due E :=
  repeat match type of E with
         | context [Z.max ?a ?b] =>
             lazymatch a with
             | 0 => fail
             | _ => rewrite (Z.max_r a b) in E by lia
             end
         end.

(** One timer fires in the state [Hp : Playing ...] of the player [p]:
    the equation [Hp'] of the next state [p']. *)
Ltac playing_begin Hp p :=
  let Hp' := fresh "Hp'" in
  let p' := fresh "p'" in
  destruct Hp as (Hm & Hdata & Hs & Hd & Hnow & HTD & id & Hq & Htm);
  destruct p as [nw mt url dt st dir ctl ab stt tm fl q nid nrq];
  cbn [now mounted data step direction timer queue nextId] in *;
  subst;
  eexists; split; [unfold fire; cbn [queue earliest]; reflexivity|];
  match goal with |- Playing _ _ _ _ _ _ ?x => remember x as p' eqn:Hp' end;
  player_compute_in Hp'; rewrite ?Nat.eqb_refl in Hp';
  player_compute_in Hp'.

Ltac playing_end E q v cfg :=
  decide_tests E v cfg;
  player_compute_in E; rewrite ?Nat.eqb_refl in E;
  player_compute_in E; clock_at_due E; subst q; finish_playing.

Ltac playing_fire Hp p v cfg :=
  playing_begin Hp p;
  match goal with
  | E : ?x = _ |- Playing _ _ _ _ _ _ ?x => playing_end E x v cfg
  end.

Section Timeline.
Context {num : Type}.
Variable v : Edition.
Variable cfg : Config.
Variable json : Json num.

Lemma Playing_at (s d T D s' T' D' : Z) (cb cb' : Callback) (p : Player num) :
  Playing json s d T cb D p -> s = s' -> T = T' -> D = D' -> cb = cb' ->
  Playing json s' d T' cb' D' p.
Proof. now intros Hp <- <- <- <-. Qed.

Lemma after_timeouts_add (a b : nat) (p : Player num) :
  after_timeouts v cfg (a + b) p
  = after_timeouts v cfg b (after_timeouts v cfg a p).
Proof.
  revert p. induction a as [|a IH]; intros p; [reflexivity|].
  cbn [Nat.add after_timeouts].
  destruct (fire v cfg p) as [p'|] eqn:Hfire; [apply IH|].
  destruct b; cbn [after_timeouts]; [reflexivity|]. now rewrite Hfire.
Qed.

Lemma after_one_timeout (p p' : Player num) :
  fire v cfg p = Some p' -> after_timeouts v cfg 1 p = p'.
Proof. intros Hfire. cbn [after_timeouts]. now rewrite Hfire. Qed.

(** The start transition. *)
Lemma start_fires (t0 : Z) (p : Player num) :
  Waiting json t0 p ->
  exists p', fire v cfg p = Some p' /\
    Playing json 0 1 (t0 + 500) (cb_nextTick 0 1 (total_of json))
      (t0 + 500 + Z.max 0 (duration cfg + delay cfg)) p'.
Proof.
  intros (Hm & Hdata & Hs & Hd & Hnow & i & j & dj & Hq & Hij & Htm & Hdj).
  destruct p as [nw mt url dt st dir ctl ab stt tm fl q nid nrq].
  cbn [now mounted data step direction timer queue nextId] in *. subst.
  assert ((i =? j)%nat = false) as Hij' by now apply Nat.eqb_neq.
  assert ((j =? i)%nat = false) as Hji' by (apply Nat.eqb_neq; congruence).
  assert ((dj <? t0 + 500) = false) as Hlt by (apply Z.ltb_ge; lia).
  eexists. split.
  { unfold fire. cbn [queue earliest due]. rewrite Hlt. reflexivity. }
  match goal with |- Playing _ _ _ _ _ _ ?x => remember x as p' eqn:Hp' end.
  player_compute_in Hp'. rewrite ?Nat.eqb_refl, ?Hij', ?Hji' in Hp'.
  player_compute_in Hp'. decide_tests Hp' v cfg.
  player_compute_in Hp'. rewrite ?Nat.eqb_refl, ?Hij', ?Hji' in Hp'.
  player_compute_in Hp'. clock_at_due Hp'. subst p'. finish_playing.
Qed.

(** A tick of the forward pass before the last stroke. *)
Lemma tick_forward (s T D : Z) (p : Player num) :
  Playing json s 1 T (cb_nextTick s 1 (total_of json)) D p ->
  s < total_of json - 1 ->
  exists p', fire v cfg p = Some p' /\
    Playing json (s + 1) 1 D (cb_nextTick (s + 1) 1 (total_of json))
      (D + Z.max 0 (duration cfg + delay cfg)) p'.
Proof. intros Hp Hlt. playing_fire Hp p v cfg. Qed.

(** A tick of the backward pass before the first stroke. *)
Lemma tick_backward (s T D : Z) (p : Player num) :
  Playing json s (-1) T (cb_nextTick s (-1) (total_of json)) D p ->
  0 < s ->
  exists p', fire v cfg p = Some p' /\
    Playing json (s - 1) (-1) D (cb_nextTick (s - 1) (-1) (total_of json))
      (D + Z.max 0 (duration cfg + delay cfg)) p'.
Proof. intros Hp Hlt. playing_fire Hp p v cfg. Qed.

(** The tick at the written end, in a player that loops. *)
Lemma tick_at_written_end (s T D : Z) (p : Player num) :
  Playing json s 1 T (cb_nextTick s 1 (total_of json)) D p ->
  total_of json - 1 <= s ->
  loop cfg = true \/ v = Legacy ->
  exists p', fire v cfg p = Some p' /\
    Playing json s 1 D (cb_setDirection (-1))
      (D + Z.max 0 (loopDelay cfg)) p'.
Proof.
  intros Hp Hge [Hloop | ->].
  - playing_begin Hp p. rewrite Hloop in Hp'. playing_end Hp' p' v cfg.
  - playing_fire Hp p Legacy cfg.
Qed.

(** The tick at the written end, in a player that does not loop. *)
Lemma tick_at_written_end_once (s T D : Z) (p : Player num) :
  Playing json s 1 T (cb_nextTick s 1 (total_of json)) D p ->
  total_of json - 1 <= s ->
  loop cfg = false -> v <> Legacy ->
  exists p', fire v cfg p = Some p' /\
    step p' = s /\ direction p' = 1 /\ now p' = D /\ queue p' = [].
Proof.
  intros Hp Hge Hloop Hv.
  destruct Hp as (Hm & Hdata & Hs & Hd & Hnow & HTD & id & Hq & Htm).
  destruct p as [nw mt url dt st dir ctl ab stt tm fl q nid nrq].
  cbn [now mounted data step direction timer queue nextId] in *. subst.
  eexists. split; [unfold fire; cbn [queue earliest]; reflexivity|].
  match goal with |- step ?x = _ /\ _ => remember x as p' eqn:Hp' end.
  player_compute_in Hp'. rewrite ?Nat.eqb_refl, Hloop in Hp'.
  player_compute_in Hp'. decide_tests Hp' v cfg; try congruence;
    subst p'; player_fields; repeat split; lia.
Qed.

(** The tick at the erased end. *)
Lemma tick_at_erased_end (s T D : Z) (p : Player num) :
  Playing json s (-1) T (cb_nextTick s (-1) (total_of json)) D p ->
  s <= 0 ->
  exists p', fire v cfg p = Some p' /\
    Playing json s (-1) D (cb_setDirection 1)
      (D + Z.max 0 (eraseDelay cfg)) p'.
Proof. intros Hp Hle. playing_fire Hp p v cfg. Qed.

(** A change of direction. *)
Lemma turn (s d x T D : Z) (p : Player num) :
  Playing json s d T (cb_setDirection x) D p ->
  x <> d ->
  exists p', fire v cfg p = Some p' /\
    Playing json s x D (cb_nextTick s x (total_of json))
      (D + Z.max 0 (duration cfg + delay cfg)) p'.
Proof. intros Hp Hne. playing_fire Hp p v cfg. Qed.

(** [k] ticks of the forward pass. *)
Lemma forward_pass (k : nat) (T : Z) (p : Player num) :
  Playing json 0 1 T (cb_nextTick 0 1 (total_of json))
    (T + Z.max 0 (duration cfg + delay cfg)) p ->
  Z.of_nat k <= total_of json - 1 ->
  Playing json (Z.of_nat k) 1
    (T + Z.of_nat k * Z.max 0 (duration cfg + delay cfg))
    (cb_nextTick (Z.of_nat k) 1 (total_of json))
    (T + (Z.of_nat k + 1) * Z.max 0 (duration cfg + delay cfg))
    (after_timeouts v cfg k p).
Proof.
  intros Hp. induction k as [|k IH]; intros Hk.
  - cbn [after_timeouts]. eapply Playing_at; [exact Hp|..]; try reflexivity;
      cbn; lia.
  - replace (S k) with (k + 1)%nat by lia. rewrite after_timeouts_add.
    destruct (tick_forward _ _ _ _ (IH ltac:(lia))) as (p' & Hfire & Hp');
      [lia|].
    rewrite (after_one_timeout _ _ Hfire).
    eapply Playing_at; [exact Hp'|..]; try (f_equal; lia); lia.
Qed.

(** [k] ticks of the backward pass. *)
Lemma backward_pass (k : nat) (T : Z) (p : Player num) :
  Playing json (total_of json - 1) (-1) T
    (cb_nextTick (total_of json - 1) (-1) (total_of json))
    (T + Z.max 0 (duration cfg + delay cfg)) p ->
  Z.of_nat k <= total_of json - 1 ->
  Playing json (total_of json - 1 - Z.of_nat k) (-1)
    (T + Z.of_nat k * Z.max 0 (duration cfg + delay cfg))
    (cb_nextTick (total_of json - 1 - Z.of_nat k) (-1) (total_of json))
    (T + (Z.of_nat k + 1) * Z.max 0 (duration cfg + delay cfg))
    (after_timeouts v cfg k p).
Proof.
  intros Hp. induction k as [|k IH]; intros Hk.
  - cbn [after_timeouts]. eapply Playing_at; [exact Hp|..];
      try (f_equal; lia); cbn; lia.
  - replace (S k) with (k + 1)%nat by lia. rewrite after_timeouts_add.
    destruct (tick_backward _ _ _ _ (IH ltac:(lia))) as (p' & Hfire & Hp');
      [lia|].
    rewrite (after_one_timeout _ _ Hfire).
    eapply Playing_at; [exact Hp'|..]; try (f_equal; lia); lia.
Qed.

(** From the written end through the dwell to the first state of the
    backward pass. *)
Lemma reversal_at_written_end (T D : Z) (p : Player num) :
  Playing json (total_of json - 1) 1 T
    (cb_nextTick (total_of json - 1) 1 (total_of json)) D p ->
  loop cfg = true \/ v = Legacy ->
  Playing json (total_of json - 1) (-1) (D + Z.max 0 (loopDelay cfg))
    (cb_nextTick (total_of json - 1) (-1) (total_of json))
    (D + Z.max 0 (loopDelay cfg) + Z.max 0 (duration cfg + delay cfg))
    (after_timeouts v cfg 2 p).
Proof.
  intros Hp Hloop.
  destruct (tick_at_written_end _ _ _ _ Hp ltac:(lia) Hloop)
    as (p1 & Hf1 & Hp1).
  destruct (turn _ _ _ _ _ _ Hp1 ltac:(lia)) as (p2 & Hf2 & Hp2).
  change 2%nat with (1 + 1)%nat. rewrite after_timeouts_add.
  rewrite (after_one_timeout _ _ Hf1), (after_one_timeout _ _ Hf2).
  exact Hp2.
Qed.

(** From the erased end through the dwell to the first state of the
    forward pass. *)
Lemma reversal_at_erased_end (T D : Z) (p : Player num) :
  Playing json 0 (-1) T (cb_nextTick 0 (-1) (total_of json)) D p ->
  Playing json 0 1 (D + Z.max 0 (eraseDelay cfg))
    (cb_nextTick 0 1 (total_of json))
    (D + Z.max 0 (eraseDelay cfg) + Z.max 0 (duration cfg + delay cfg))
    (after_timeouts v cfg 2 p).
Proof.
  intros Hp.
  destruct (tick_at_erased_end _ _ _ _ Hp ltac:(lia)) as (p1 & Hf1 & Hp1).
  destruct (turn _ _ _ _ _ _ Hp1 ltac:(lia)) as (p2 & Hf2 & Hp2).
  change 2%nat with (1 + 1)%nat. rewrite after_timeouts_add.
  rewrite (after_one_timeout _ _ Hf1), (after_one_timeout _ _ Hf2).
  exact Hp2.
Qed.

(** The first state of the backward pass, reached from the first state of
    the forward pass. *)
Lemma written_then_reversed (T : Z) (p : Player num) :
  Playing json 0 1 T (cb_nextTick 0 1 (total_of json))
    (T + Z.max 0 (duration cfg + delay cfg)) p ->
  1 <= total_of json ->
  loop cfg = true \/ v = Legacy ->
  Playing json (total_of json - 1) (-1)
    (T + total_of json * Z.max 0 (duration cfg + delay cfg)
     + Z.max 0 (loopDelay cfg))
    (cb_nextTick (total_of json - 1) (-1) (total_of json))
    (T + total_of json * Z.max 0 (duration cfg + delay cfg)
     + Z.max 0 (loopDelay cfg) + Z.max 0 (duration cfg + delay cfg))
    (after_timeouts v cfg (Z.to_nat (total_of json) - 1 + 2) p).
Proof.
  intros Hp Hn Hloop. rewrite after_timeouts_add.
  pose proof (forward_pass (Z.to_nat (total_of json) - 1) T p Hp) as Hfw.
  assert (Z.of_nat (Z.to_nat (total_of json) - 1) = total_of json - 1) as Hk
    by lia.
  rewrite Hk in Hfw. specialize (Hfw ltac:(lia)).
  eapply Playing_at;
    [apply (reversal_at_written_end _ _ _ Hfw Hloop)|..];
    try reflexivity; lia.
Qed.

(** One cycle of a looping player: write, dwell, erase, dwell. *)
Lemma one_cycle (T : Z) (p : Player num) :
  Playing json 0 1 T (cb_nextTick 0 1 (total_of json))
    (T + Z.max 0 (duration cfg + delay cfg)) p ->
  1 <= total_of json ->
  loop cfg = true \/ v = Legacy ->
  Playing json 0 1
    (T + (2 * total_of json * Z.max 0 (duration cfg + delay cfg)
          + Z.max 0 (loopDelay cfg) + Z.max 0 (eraseDelay cfg)))
    (cb_nextTick 0 1 (total_of json))
    (T + (2 * total_of json * Z.max 0 (duration cfg + delay cfg)
          + Z.max 0 (loopDelay cfg) + Z.max 0 (eraseDelay cfg))
     + Z.max 0 (duration cfg + delay cfg))
    (after_timeouts v cfg (2 * Z.to_nat (total_of json) + 2) p).
Proof.
  intros Hp Hn Hloop.
  replace (2 * Z.to_nat (total_of json) + 2)%nat
    with ((Z.to_nat (total_of json) - 1 + 2)
          + ((Z.to_nat (total_of json) - 1) + 2))%nat
    by lia.
  rewrite after_timeouts_add.
  pose proof (written_then_reversed T p Hp Hn Hloop) as Hrev.
  rewrite after_timeouts_add.
  pose proof (backward_pass (Z.to_nat (total_of json) - 1) _ _ Hrev) as Hbw.
  assert (Z.of_nat (Z.to_nat (total_of json) - 1) = total_of json - 1) as Hk
    by lia.
  rewrite Hk in Hbw. specialize (Hbw ltac:(lia)).
  assert (total_of json - 1 - (total_of json - 1) = 0) as H0 by lia.
  rewrite H0 in Hbw.
  eapply Playing_at; [apply (reversal_at_erased_end _ _ _ Hbw)|..];
    try reflexivity; lia.
Qed.

Lemma cycles (m : nat) (T : Z) (p : Player num) :
  Playing json 0 1 T (cb_nextTick 0 1 (total_of json))
    (T + Z.max 0 (duration cfg + delay cfg)) p ->
  1 <= total_of json ->
  loop cfg = true \/ v = Legacy ->
  Playing json 0 1
    (T + Z.of_nat m
         * (2 * total_of json * Z.max 0 (duration cfg + delay cfg)
          + Z.max 0 (loopDelay cfg) + Z.max 0 (eraseDelay cfg)))
    (cb_nextTick 0 1 (total_of json))
    (T + Z.of_nat m
         * (2 * total_of json * Z.max 0 (duration cfg + delay cfg)
          + Z.max 0 (loopDelay cfg) + Z.max 0 (eraseDelay cfg))
     + Z.max 0 (duration cfg + delay cfg))
    (after_timeouts v cfg (m * (2 * Z.to_nat (total_of json) + 2)) p).
Proof.
  intros Hp Hn Hloop. induction m as [|m IH].
  - cbn [Nat.mul after_timeouts]. eapply Playing_at; [exact Hp|..];
      try reflexivity; lia.
  - replace (S m * (2 * Z.to_nat (total_of json) + 2))%nat
      with (m * (2 * Z.to_nat (total_of json) + 2)
            + (2 * Z.to_nat (total_of json) + 2))%nat by lia.
    rewrite after_timeouts_add.
    eapply Playing_at; [apply (one_cycle _ _ IH Hn Hloop)|..];
      try reflexivity; lia.
Qed.

Lemma Playing_pending (s d T D : Z) (cb : Callback) (p : Player num) :
  Playing json s d T cb D p ->
  step p = s /\ direction p = d /\ now p = T /\ pending p = [(D, cb)].
Proof.
  intros (_ & _ & Hs & Hd & Hnow & _ & id & Hq & _). unfold pending.
  rewrite Hq. now repeat split.
Qed.

Lemma loaded_started (url : string) (t0 : Z) (p0 : Player num) :
  loaded v cfg url json t0 = Some p0 ->
  500 <= duration cfg + delay cfg ->
  1 <= total_of json ->
  Playing json 0 1 (t0 + 500) (cb_nextTick 0 1 (total_of json))
    (t0 + 500 + Z.max 0 (duration cfg + delay cfg)) (after_timeouts v cfg 1 p0).
Proof.
  intros Hload Hint Hn.
  pose proof (loaded_Waiting v cfg json url t0 p0 Hn Hint Hload) as Hw.
  destruct (start_fires t0 p0 Hw) as (p1 & Hf & Hp1).
  now rewrite (after_one_timeout _ _ Hf).
Qed.
End Timeline.

(** X10. The timeline of the forward pass, in every program of the
    repository and for every document and settings with a tick interval
    [duration + delay] of 500 ms or more: stroke [k] becomes the current
    stroke [500 + k * (duration + delay)] ms after the document has loaded
    (after [k + 1] timers have fired), the direction is still forward, and
    the only pending timer is the tick one interval later, whose closure
    holds the new [step]. *)
Theorem forward_pass_timeline {num : Type} (v : Edition) (cfg : Config)
    (url : string) (json : Json num) (t0 : Z) (p0 : Player num) (k : nat) :
  loaded v cfg url json t0 = Some p0 ->
  500 <= duration cfg + delay cfg ->
  Z.of_nat k < total_of json ->
  let p := after_timeouts v cfg (S k) p0 in
  step p = Z.of_nat k /\ direction p = 1 /\
  now p = t0 + 500 + Z.of_nat k * (duration cfg + delay cfg) /\
  pending p
  = [ (now p + (duration cfg + delay cfg),
       cb_nextTick (Z.of_nat k) 1 (total_of json)) ].
Proof.
  intros Hload Hint Hk p. subst p.
  change (S k) with (1 + k)%nat. rewrite after_timeouts_add.
  pose proof (loaded_started v cfg json url t0 p0 Hload Hint ltac:(lia))
    as Hst.
  pose proof (forward_pass v cfg json k _ _ Hst ltac:(lia)) as Hfw.
  apply Playing_pending in Hfw as (Hs & Hd & Hnow & Hpend).
  rewrite Hs, Hd, Hnow, Hpend.
  rewrite Z.max_r by lia. repeat split; try reflexivity.
  do 2 f_equal. lia.
Qed.

Lemma forward_pass_timeline_witness :
  let p := after_timeouts Abortable DEFAULT_CONFIG 3
             (demo_player Abortable DEFAULT_CONFIG 3) in
  step p = 2 /\ direction p = 1 /\ now p = 0 + 500 + 2 * (1000 + 100) /\
  pending p = [ (now p + (1000 + 100), cb_nextTick 2 1 3) ].
Proof.
  apply (forward_pass_timeline Abortable DEFAULT_CONFIG "signature.json"
           (plain_document 3) 0 (demo_player Abortable DEFAULT_CONFIG 3) 2).
  - vm_compute. reflexivity.
  - vm_compute. discriminate.
  - vm_compute. reflexivity.
Defined.

(** X11. The timeline of the backward pass of a player that loops
    ([loop] set, or the second program of [src/signature-player.js], which
    always loops), tick interval of 500 ms or more: the tick at the written
    end schedules the change of direction after [loopDelay]; counted from
    the load, the erasing starts at
    [500 + strokeCount * interval + max 0 loopDelay] ms with the last stroke
    current, and [k] intervals later stroke [strokeCount - 1 - k] is the
    current one, the direction backward and the next tick one interval
    away. *)
Theorem backward_pass_timeline {num : Type} (v : Edition) (cfg : Config)
    (url : string) (json : Json num) (t0 : Z) (p0 : Player num) (k : nat) :
  loaded v cfg url json t0 = Some p0 ->
  500 <= duration cfg + delay cfg ->
  loop cfg = true \/ v = Legacy ->
  Z.of_nat k < total_of json ->
  let p := after_timeouts v cfg (Z.to_nat (total_of json) + 2 + k) p0 in
  step p = total_of json - 1 - Z.of_nat k /\ direction p = -1 /\
  now p = t0 + 500 + total_of json * (duration cfg + delay cfg)
          + Z.max 0 (loopDelay cfg)
          + Z.of_nat k * (duration cfg + delay cfg) /\
  pending p
  = [ (now p + (duration cfg + delay cfg),
       cb_nextTick (total_of json - 1 - Z.of_nat k) (-1) (total_of json)) ].
Proof.
  intros Hload Hint Hloop Hk p. subst p.
  replace (Z.to_nat (total_of json) + 2 + k)%nat
    with (1 + ((Z.to_nat (total_of json) - 1 + 2) + k))%nat by lia.
  rewrite after_timeouts_add, after_timeouts_add.
  pose proof (loaded_started v cfg json url t0 p0 Hload Hint ltac:(lia))
    as Hst.
  pose proof (written_then_reversed v cfg json _ _ Hst ltac:(lia) Hloop)
    as Hrev.
  pose proof (backward_pass v cfg json k _ _ Hrev ltac:(lia)) as Hbw.
  apply Playing_pending in Hbw as (Hs & Hd & Hnow & Hpend).
  rewrite Hs, Hd, Hnow, Hpend.
  rewrite Z.max_r by lia. repeat split; try reflexivity.
  do 2 f_equal. lia.
Qed.

Lemma backward_pass_timeline_witness :
  let p := after_timeouts Legacy CONFIG 6 (demo_player Legacy CONFIG 3) in
  step p = 3 - 1 - 1 /\ direction p = -1 /\
  now p = 0 + 500 + 3 * (1000 + 100) + Z.max 0 2000 + 1 * (1000 + 100) /\
  pending p = [ (now p + (1000 + 100), cb_nextTick (3 - 1 - 1) (-1) 3) ].
Proof.
  apply (backward_pass_timeline Legacy CONFIG "signature.json"
           (plain_document 3) 0 (demo_player Legacy CONFIG 3) 1).
  - vm_compute. reflexivity.
  - vm_compute. discriminate.
  - right. reflexivity.
  - vm_compute. reflexivity.
Defined.

(** X12. Looped playback is periodic.  For a document of at least one
    stroke and a tick interval of 500 ms or more, a player that loops is
    back at the first stroke, writing, with the same timer pending, every
    [2 * strokeCount * interval + max 0 loopDelay + max 0 eraseDelay] ms,
    and each such cycle takes [2 * strokeCount + 2] timers: the [m]-th
    repetition starts [500 + m * period] ms after the load. *)
Theorem looped_playback_is_periodic {num : Type} (v : Edition) (cfg : Config)
    (url : string) (json : Json num) (t0 : Z) (p0 : Player num) (m : nat) :
  loaded v cfg url json t0 = Some p0 ->
  500 <= duration cfg + delay cfg ->
  1 <= total_of json ->
  loop cfg = true \/ v = Legacy ->
  let p := after_timeouts v cfg
             (1 + m * (2 * Z.to_nat (total_of json) + 2)) p0 in
  step p = 0 /\ direction p = 1 /\
  now p = t0 + 500
          + Z.of_nat m * (2 * total_of json * (duration cfg + delay cfg)
                          + Z.max 0 (loopDelay cfg)
                          + Z.max 0 (eraseDelay cfg)) /\
  pending p
  = [ (now p + (duration cfg + delay cfg),
       cb_nextTick 0 1 (total_of json)) ].
Proof.
  intros Hload Hint Hn Hloop p. subst p.
  rewrite after_timeouts_add.
  pose proof (loaded_started v cfg json url t0 p0 Hload Hint Hn) as Hst.
  pose proof (cycles v cfg json m _ _ Hst Hn Hloop) as Hcy.
  apply Playing_pending in Hcy as (Hs & Hd & Hnow & Hpend).
  rewrite Hs, Hd, Hnow, Hpend.
  rewrite Z.max_r by lia. repeat split; reflexivity.
Qed.

Lemma looped_playback_is_periodic_witness :
  let p := after_timeouts Unabortable DEFAULT_CONFIG 13
             (demo_player Unabortable DEFAULT_CONFIG 2) in
  step p = 0 /\ direction p = 1 /\
  now p = 0 + 500 + 2 * (2 * 2 * (1000 + 100) + Z.max 0 2000 + Z.max 0 500) /\
  pending p = [ (now p + (1000 + 100), cb_nextTick 0 1 2) ].
Proof.
  apply (looped_playback_is_periodic Unabortable DEFAULT_CONFIG
           "signature.json" (plain_document 2) 0
           (demo_player Unabortable DEFAULT_CONFIG 2) 2).
  - vm_compute. reflexivity.
  - vm_compute. discriminate.
  - vm_compute. discriminate.
  - left. reflexivity.
Defined.

(** X13. Playback of a player that does not loop ([loop: false], first
    program of [src/signature-player.js] and [src/unnamed/part_000]) ends.
    For a document of at least one stroke and a tick interval of 500 ms or
    more, the last timer fires [500 + strokeCount * interval] ms after the
    load, after [strokeCount + 1] timers; from then on the last stroke is
    the current one, the direction is forward and no timer is pending, so
    the signature stays written. *)
Theorem single_playback_ends {num : Type} (v : Edition) (cfg : Config)
    (url : string) (json : Json num) (t0 : Z) (p0 : Player num) (m : nat) :
  loaded v cfg url json t0 = Some p0 ->
  500 <= duration cfg + delay cfg ->
  1 <= total_of json ->
  loop cfg = false -> v <> Legacy ->
  (Z.to_nat (total_of json) + 1 <= m)%nat ->
  let p := after_timeouts v cfg m p0 in
  step p = total_of json - 1 /\ direction p = 1 /\ queue p = [] /\
  now p = t0 + 500 + total_of json * (duration cfg + delay cfg).
Proof.
  intros Hload Hint Hn Hloop Hv Hm p. subst p.
  replace m
    with (1 + ((Z.to_nat (total_of json) - 1)
               + (1 + (m - (Z.to_nat (total_of json) + 1)))))%nat by lia.
  rewrite 3 after_timeouts_add.
  pose proof (loaded_started v cfg json url t0 p0 Hload Hint Hn) as Hst.
  pose proof (forward_pass v cfg json (Z.to_nat (total_of json) - 1) _ _ Hst
                ltac:(lia)) as Hfw.
  assert (Z.of_nat (Z.to_nat (total_of json) - 1) = total_of json - 1) as Hk
    by lia.
  rewrite Hk in Hfw.
  destruct (tick_at_written_end_once v cfg json _ _ _ _ Hfw ltac:(lia)
              Hloop Hv) as (p' & Hfire & Hs & Hd & Hnow & Hq).
  rewrite (after_one_timeout v cfg _ _ Hfire).
  rewrite (no_timer_no_change v cfg _ _ Hq).
  rewrite Hs, Hd, Hnow, Hq. rewrite Z.max_r by lia.
  repeat split; try reflexivity. lia.
Qed.

Lemma single_playback_ends_witness :
  let p := after_timeouts Abortable once 7 (demo_player Abortable once 3) in
  step p = 3 - 1 /\ direction p = 1 /\ queue p = [] /\
  now p = 0 + 500 + 3 * (1000 + 100).
Proof.
  apply (single_playback_ends Abortable once "signature.json"
           (plain_document 3) 0 (demo_player Abortable once 3) 7).
  - vm_compute. reflexivity.
  - vm_compute. discriminate.
  - vm_compute. discriminate.
  - reflexivity.
  - discriminate.
  - vm_compute. lia.
Defined.

(** ** The controller: the end of the backward pass *)

(** The controller's pending timer and the start timers of the next
    state. *)
Ltac finish_timers :=
  unfold controller_pending, controller_timers, start_timers, is_start;
  player_fields; cbn [List.filter map negb callback due];
  repeat match goal with |- _ /\ _ => split end;
  try reflexivity; try lia; try (repeat f_equal; lia).

(** One timer fires in an orderly state of the player [p]: the cases of the
    queue, and in each the equation [E] of the next state. *)
Ltac orderly_begin Hord p :=
  destruct Hord as (Hm & Hdata & Hdirs & Hrange & Hids & Hq);
  unfold controller_timer_fresh in Hq;
  destruct p as [nw mt url dt st dir ctl ab stt tm fl q nid nrq];
  cbn [now mounted data step direction timer queue nextId] in *;
  subst mt dt;
  destruct Hq as [-> | [(c & -> & Htm & Hc) | [(s0 & -> & Hs0)
                 | (s0 & c & -> & Hs0 & Hne & Htm & Hc)]]].

Section EndOfBackwardPass.
Context {num : Type}.
Variable v : Edition.
Variable cfg : Config.
Variable json : Json num.

(** The tick at the erased end. *)
Lemma Orderly_tick_at_erased_end (p : Player num) (t : Timer) (s d n : Z) :
  Orderly json p -> direction p = -1 -> step p = 0 ->
  earliest (queue p) = Some t -> callback t = cb_nextTick s d n ->
  exists p',
    fire v cfg p = Some p' /\ Orderly json p' /\
    step p' = 0 /\ direction p' = -1 /\
    controller_pending p'
    = [ (now p' + Z.max 0 (eraseDelay cfg), cb_setDirection 1) ] /\
    start_timers (queue p') = start_timers (queue p).
Proof.
  intros Hord Hdir Hstep Ht Hcb.
  destruct (fire v cfg p) as [p'|] eqn:Hfire;
    [|unfold fire in Hfire; rewrite Ht in Hfire; discriminate].
  exists p'. split; [reflexivity|].
  split; [now apply (Orderly_fire v cfg json p p' Hord Hfire)|].
  unfold fire in Hfire. rewrite Ht in Hfire.
  apply (inj Some) in Hfire. symmetry in Hfire.
  orderly_begin Hord p; cbn [earliest] in Ht.
  - discriminate.
  - injection Ht as <-. destruct c as [idc dlc cbc].
    cbn [timer_id due callback timer step direction] in *.
    subst tm cbc dir st. destruct Hc as (-> & -> & ->).
    player_compute_in Hfire. rewrite ?Nat.eqb_refl in Hfire.
    player_compute_in Hfire. decide_tests Hfire v cfg;
      player_compute_in Hfire; subst p'; finish_timers.
  - injection Ht as <-. congruence.
  - destruct s0 as [ids dls cbs]. destruct c as [idc dlc cbc].
    cbn [timer_id due callback timer step direction] in *.
    subst tm cbs dir st.
    assert ((ids =? idc)%nat = false) as Hsc by now apply Nat.eqb_neq.
    assert ((idc =? ids)%nat = false) as Hcs
      by (apply Nat.eqb_neq; congruence).
    cbn [due] in Ht. destruct (dlc <? dls); injection Ht as <-;
      cbn [callback] in Hcb; [|discriminate].
    subst cbc. destruct Hc as (-> & -> & ->).
    player_compute_in Hfire. rewrite ?Nat.eqb_refl, ?Hsc, ?Hcs in Hfire.
    player_compute_in Hfire. decide_tests Hfire v cfg;
      player_compute_in Hfire; subst p'; finish_timers.
Qed.

(** The change of direction after the erase dwell. *)
Lemma Orderly_change_to_forward (p : Player num) (t : Timer) :
  Orderly json p -> direction p = -1 ->
  earliest (queue p) = Some t -> callback t = cb_setDirection 1 ->
  exists p',
    fire v cfg p = Some p' /\ Orderly json p' /\
    step p' = step p /\ direction p' = 1 /\
    controller_pending p'
    = [ (now p' + Z.max 0 (duration cfg + delay cfg),
         cb_nextTick (step p) 1 (total_of json)) ] /\
    start_timers (queue p') = start_timers (queue p).
Proof.
  intros Hord Hdir Ht Hcb.
  destruct (fire v cfg p) as [p'|] eqn:Hfire;
    [|unfold fire in Hfire; rewrite Ht in Hfire; discriminate].
  exists p'. split; [reflexivity|].
  split; [now apply (Orderly_fire v cfg json p p' Hord Hfire)|].
  unfold fire in Hfire. rewrite Ht in Hfire.
  apply (inj Some) in Hfire. symmetry in Hfire.
  orderly_begin Hord p; cbn [earliest] in Ht.
  - discriminate.
  - injection Ht as <-. destruct c as [idc dlc cbc].
    cbn [timer_id due callback timer step direction] in *.
    subst tm cbc dir.
    player_compute_in Hfire. rewrite ?Nat.eqb_refl in Hfire.
    player_compute_in Hfire. decide_tests Hfire v cfg;
      player_compute_in Hfire; rewrite ?Nat.eqb_refl in Hfire;
      player_compute_in Hfire; subst p'; finish_timers.
  - injection Ht as <-. congruence.
  - destruct s0 as [ids dls cbs]. destruct c as [idc dlc cbc].
    cbn [timer_id due callback timer step direction] in *.
    subst tm cbs dir.
    assert ((ids =? idc)%nat = false) as Hsc by now apply Nat.eqb_neq.
    assert ((idc =? ids)%nat = false) as Hcs
      by (apply Nat.eqb_neq; congruence).
    cbn [due] in Ht. destruct (dlc <? dls); injection Ht as <-;
      cbn [callback] in Hcb; [|discriminate].
    subst cbc.
    player_compute_in Hfire. rewrite ?Nat.eqb_refl, ?Hsc, ?Hcs in Hfire.
    player_compute_in Hfire. decide_tests Hfire v cfg;
      player_compute_in Hfire; rewrite ?Nat.eqb_refl, ?Hsc, ?Hcs in Hfire;
      player_compute_in Hfire; subst p'; finish_timers.
Qed.

(** The tick at the first stroke, forward. *)
Lemma Orderly_tick_at_first_stroke (p : Player num) (t : Timer) (s d n : Z) :
  Orderly json p -> direction p = 1 -> step p = 0 ->
  earliest (queue p) = Some t -> callback t = cb_nextTick s d n ->
  exists p',
    fire v cfg p = Some p' /\
    direction p' = 1 /\
    step p' = if 2 <=? total_of json then 1 else 0.
Proof.
  intros Hord Hdir Hstep Ht Hcb.
  destruct (fire v cfg p) as [p'|] eqn:Hfire;
    [|unfold fire in Hfire; rewrite Ht in Hfire; discriminate].
  exists p'. split; [reflexivity|].
  unfold fire in Hfire. rewrite Ht in Hfire.
  apply (inj Some) in Hfire. symmetry in Hfire.
  orderly_begin Hord p; cbn [earliest] in Ht.
  - discriminate.
  - injection Ht as <-. destruct c as [idc dlc cbc].
    cbn [timer_id due callback timer step direction] in *.
    subst tm cbc dir st. destruct Hc as (-> & -> & ->).
    player_compute_in Hfire. rewrite ?Nat.eqb_refl in Hfire.
    player_compute_in Hfire. decide_tests Hfire v cfg;
      player_compute_in Hfire; rewrite ?Nat.eqb_refl in Hfire;
      player_compute_in Hfire; subst p'; player_fields;
      (split; [reflexivity|]);
      destruct (Z.leb_spec 2 (total_of json)); lia.
  - injection Ht as <-. congruence.
  - destruct s0 as [ids dls cbs]. destruct c as [idc dlc cbc].
    cbn [timer_id due callback timer step direction] in *.
    subst tm cbs dir st.
    assert ((ids =? idc)%nat = false) as Hsc by now apply Nat.eqb_neq.
    assert ((idc =? ids)%nat = false) as Hcs
      by (apply Nat.eqb_neq; congruence).
    cbn [due] in Ht. destruct (dlc <? dls); injection Ht as <-;
      cbn [callback] in Hcb; [|discriminate].
    subst cbc. destruct Hc as (-> & -> & ->).
    player_compute_in Hfire. rewrite ?Nat.eqb_refl, ?Hsc, ?Hcs in Hfire.
    player_compute_in Hfire. decide_tests Hfire v cfg;
      player_compute_in Hfire; rewrite ?Nat.eqb_refl, ?Hsc, ?Hcs in Hfire;
      player_compute_in Hfire; subst p'; player_fields;
      (split; [reflexivity|]);
      destruct (Z.leb_spec 2 (total_of json)); lia.
Qed.

(** A start timer that fires at [step = 0] changes nothing. *)
Lemma Orderly_start_at_first_stroke (p : Player num) (t : Timer) :
  Orderly json p -> step p = 0 ->
  earliest (queue p) = Some t -> callback t = cb_setStep0 ->
  exists p',
    fire v cfg p = Some p' /\ Orderly json p' /\
    step p' = 0 /\ direction p' = direction p /\
    controller_pending p' = controller_pending p /\
    start_timers (queue p') = [].
Proof.
  intros Hord Hstep Ht Hcb.
  destruct (fire v cfg p) as [p'|] eqn:Hfire;
    [|unfold fire in Hfire; rewrite Ht in Hfire; discriminate].
  exists p'. split; [reflexivity|].
  split; [now apply (Orderly_fire v cfg json p p' Hord Hfire)|].
  unfold fire in Hfire. rewrite Ht in Hfire.
  apply (inj Some) in Hfire. symmetry in Hfire.
  orderly_begin Hord p; cbn [earliest] in Ht.
  - discriminate.
  - injection Ht as <-. rewrite Hcb in Hc. now destruct Hc.
  - injection Ht as <-. destruct s0 as [ids dls cbs].
    cbn [timer_id due callback timer step direction] in *. subst cbs st.
    player_compute_in Hfire. rewrite ?Nat.eqb_refl in Hfire.
    player_compute_in Hfire. decide_tests Hfire v cfg;
      player_compute_in Hfire; subst p'; finish_timers.
  - destruct s0 as [ids dls cbs]. destruct c as [idc dlc cbc].
    cbn [timer_id due callback timer step direction] in *.
    subst tm cbs st.
    assert ((ids =? idc)%nat = false) as Hsc by now apply Nat.eqb_neq.
    assert ((idc =? ids)%nat = false) as Hcs
      by (apply Nat.eqb_neq; congruence).
    cbn [due] in Ht. destruct (dlc <? dls); injection Ht as <-;
      cbn [callback] in Hcb.
    { rewrite Hcb in Hc. now destruct Hc. }
    player_compute_in Hfire. rewrite ?Nat.eqb_refl, ?Hsc, ?Hcs in Hfire.
    player_compute_in Hfire. decide_tests Hfire v cfg;
      player_compute_in Hfire; subst p';
      destruct cbc; try (now destruct Hc); finish_timers.
Qed.

(** The timer that fires next while the controller effect has a timer
    pending: that timer, or a start timer. *)
Lemma Orderly_next (p : Player num) (x : Z * Callback) :
  Orderly json p -> controller_pending p = [x] ->
  exists t,
    earliest (queue p) = Some t /\
    ((due t, callback t) = x \/
     (callback t = cb_setStep0 /\ start_timers (queue p) <> [])).
Proof.
  intros (_ & _ & _ & _ & _ & Hq) Hx.
  unfold controller_pending, controller_timers, start_timers, is_start,
    controller_timer_fresh in *.
  destruct Hq as [Hq | [(c & Hq & _ & Hc) | [(s0 & Hq & Hs0)
                 | (s0 & c & Hq & Hs0 & _ & _ & Hc)]]];
    rewrite Hq in *; cbn [List.filter map] in *.
  - discriminate.
  - exists c. split; [reflexivity|]. left.
    destruct (callback c) eqn:Hcb; try contradiction;
      cbn [negb map] in Hx; injection Hx as <-; now rewrite Hcb.
  - rewrite Hs0 in Hx. discriminate.
  - rewrite Hs0 in *. cbn [negb] in *. cbn [earliest].
    destruct (due c <? due s0).
    + exists c. split; [reflexivity|]. left.
      destruct (callback c) eqn:Hcb; try contradiction;
        cbn [negb map] in Hx; injection Hx as <-; now rewrite Hcb.
    + exists s0. split; [reflexivity|]. right. split; [exact Hs0|].
      discriminate.
Qed.

Lemma after_fire (k : nat) (p q q' : Player num) :
  after_timeouts v cfg k p = q -> fire v cfg q = Some q' ->
  after_timeouts v cfg (S k) p = q'.
Proof.
  intros Hk Hfire. replace (S k) with (k + 1)%nat by lia.
  rewrite after_timeouts_add, Hk. now apply after_one_timeout.
Qed.

Lemma Orderly_never_back (p : Player num) (k : nat) :
  Orderly json p -> 0 <= step p ->
  0 <= step (after_timeouts v cfg k p).
Proof.
  revert p. induction k as [|k IH]; intros p Hord Hstep;
    cbn [after_timeouts]; [exact Hstep|].
  destruct (fire v cfg p) as [p'|] eqn:Hfire; [|exact Hstep].
  destruct (Orderly_fire v cfg json p p' Hord Hfire) as (Hord' & Hpos & _).
  apply IH; [exact Hord'|]. now apply Hpos.
Qed.
End EndOfBackwardPass.

(** C6, for every document, every settings and each of the three
    controllers, in every state [p] a session reaches.  When a tick fires
    with [direction = -1] and [step = 0], it schedules exactly one change of
    direction to forward, [eraseDelay] later, and leaves [step] and
    [direction] as they are.  That change is the second timer to fire, or
    the third when a start timer is still pending and due before it (which
    takes a tick interval under 500 ms); it leaves [step] at 0 and re-arms
    the tick one interval later, with [step = 0] and [direction = 1] in its
    closure.  That tick is the next timer to fire but for a start timer
    still pending; it takes [step] from 0 to 1 when the document has two
    strokes or more, and with fewer it is the tick at the written end and
    [step] stays 0.  A start timer that fires in between changes nothing,
    and [step] is -1 at no later time. *)
Theorem end_of_erase_resumes_forward {num : Type} (v : Edition) (cfg : Config)
    (url : string) (json : Json num) (t0 : Z) (p0 p : Player num)
    (t : Timer) (s d n : Z) :
  loaded v cfg url json t0 = Some p0 ->
  session v cfg p0 p ->
  direction p = -1 -> step p = 0 ->
  earliest (queue p) = Some t -> callback t = cb_nextTick s d n ->
  exists change tick : nat,
    (2 <= change <= 3)%nat /\ (change < tick <= 4)%nat /\
    (forall k, (1 <= k < change)%nat ->
       let q := after_timeouts v cfg k p in
       step q = 0 /\ direction q = -1 /\
       controller_pending q
       = [ (now (after_timeouts v cfg 1 p) + Z.max 0 (eraseDelay cfg),
            cb_setDirection 1) ]) /\
    (forall k, (change <= k < tick)%nat ->
       let q := after_timeouts v cfg k p in
       step q = 0 /\ direction q = 1 /\
       controller_pending q
       = [ (now (after_timeouts v cfg change p)
            + Z.max 0 (duration cfg + delay cfg),
            cb_nextTick 0 1 (total_of json)) ]) /\
    (let q := after_timeouts v cfg tick p in
     direction q = 1 /\
     step q = if 2 <=? total_of json then 1 else 0) /\
    (forall k, step (after_timeouts v cfg k p) <> -1).
Proof.
  intros Hload Hsession Hdir Hstep Ht Hcb.
  assert (Orderly json p) as Hord.
  { destruct (session_Orderly v cfg json url t0 p0 p Hload Hsession)
      as [(_ & _ & Hidle & _) | Hord]; [lia|exact Hord]. }
  assert (forall k, step (after_timeouts v cfg k p) <> -1) as Hnever.
  { intros k. pose proof (Orderly_never_back v cfg json p k Hord). lia. }
  destruct (Orderly_tick_at_erased_end v cfg json p t s d n Hord Hdir Hstep
              Ht Hcb) as (p1 & Hf1 & Hord1 & Hs1 & Hd1 & Hc1 & Hst1).
  pose proof (after_fire v cfg 0 p p p1 eq_refl Hf1) as Ha1.
  destruct (Orderly_next json p1 _ Hord1 Hc1)
    as (t1 & Ht1 & [Hdwell | [Hstart1 Hpending1]]).
  - (* the change of direction fires second *)
    injection Hdwell as _ Hcb1.
    destruct (Orderly_change_to_forward v cfg json p1 t1 Hord1 Hd1 Ht1 Hcb1)
      as (p2 & Hf2 & Hord2 & Hs2 & Hd2 & Hc2 & Hst2).
    rewrite Hs1 in Hs2, Hc2.
    pose proof (after_fire v cfg 1 p p1 p2 Ha1 Hf2) as Ha2.
    destruct (Orderly_next json p2 _ Hord2 Hc2)
      as (t2 & Ht2 & [Htick | [Hstart2 Hpending2]]).
    + (* and the tick third *)
      injection Htick as _ Hcb2.
      destruct (Orderly_tick_at_first_stroke v cfg json p2 t2 _ _ _ Hord2
                  Hd2 Hs2 Ht2 Hcb2) as (p3 & Hf3 & Hd3 & Hs3).
      pose proof (after_fire v cfg 2 p p2 p3 Ha2 Hf3) as Ha3.
      exists 2%nat, 3%nat. split; [lia|]. split; [lia|].
      split; [|split; [|split; [|exact Hnever]]].
      * intros k Hk. assert (k = 1%nat) as -> by lia.
        cbv zeta. rewrite Ha1. now repeat split.
      * intros k Hk. assert (k = 2%nat) as -> by lia.
        cbv zeta. rewrite Ha2. now repeat split.
      * cbv zeta. rewrite Ha3. now split.
    + (* a start timer third, the tick fourth *)
      destruct (Orderly_start_at_first_stroke v cfg json p2 t2 Hord2 Hs2 Ht2
                  Hstart2)
        as (p2' & Hf2' & Hord2' & Hs2' & Hd2' & Hc2' & Hst2').
      rewrite Hc2 in Hc2'. rewrite Hd2 in Hd2'.
      pose proof (after_fire v cfg 2 p p2 p2' Ha2 Hf2') as Ha2'.
      destruct (Orderly_next json p2' _ Hord2' Hc2')
        as (t3 & Ht3 & [Htick | [_ Hpending3]]); [|congruence].
      injection Htick as _ Hcb3.
      destruct (Orderly_tick_at_first_stroke v cfg json p2' t3 _ _ _ Hord2'
                  Hd2' Hs2' Ht3 Hcb3) as (p3 & Hf3 & Hd3 & Hs3).
      pose proof (after_fire v cfg 3 p p2' p3 Ha2' Hf3) as Ha3.
      exists 2%nat, 4%nat. split; [lia|]. split; [lia|].
      split; [|split; [|split; [|exact Hnever]]].
      * intros k Hk. assert (k = 1%nat) as -> by lia.
        cbv zeta. rewrite Ha1. now repeat split.
      * intros k Hk. assert (k = 2%nat \/ k = 3%nat) as [-> | ->] by lia;
          cbv zeta; rewrite ?Ha2, ?Ha2'; now repeat split.
      * cbv zeta. rewrite Ha3. now split.
  - (* a start timer fires second, the change of direction third *)
    destruct (Orderly_start_at_first_stroke v cfg json p1 t1 Hord1 Hs1 Ht1
                Hstart1) as (p1' & Hf1' & Hord1' & Hs1' & Hd1' & Hc1' & Hst1').
    rewrite Hc1 in Hc1'. rewrite Hd1 in Hd1'.
    pose proof (after_fire v cfg 1 p p1 p1' Ha1 Hf1') as Ha1'.
    destruct (Orderly_next json p1' _ Hord1' Hc1')
      as (t2 & Ht2 & [Hdwell | [_ Hpending2]]); [|congruence].
    injection Hdwell as _ Hcb2.
    destruct (Orderly_change_to_forward v cfg json p1' t2 Hord1' Hd1' Ht2
                Hcb2) as (p2 & Hf2 & Hord2 & Hs2 & Hd2 & Hc2 & Hst2).
    rewrite Hs1' in Hs2, Hc2. rewrite Hst1' in Hst2.
    pose proof (after_fire v cfg 2 p p1' p2 Ha1' Hf2) as Ha2.
    destruct (Orderly_next json p2 _ Hord2 Hc2)
      as (t3 & Ht3 & [Htick | [_ Hpending3]]); [|congruence].
    injection Htick as _ Hcb3.
    destruct (Orderly_tick_at_first_stroke v cfg json p2 t3 _ _ _ Hord2
                Hd2 Hs2 Ht3 Hcb3) as (p3 & Hf3 & Hd3 & Hs3).
    pose proof (after_fire v cfg 3 p p2 p3 Ha2 Hf3) as Ha3.
    exists 3%nat, 4%nat. split; [lia|]. split; [lia|].
    split; [|split; [|split; [|exact Hnever]]].
    + intros k Hk. assert (k = 1%nat \/ k = 2%nat) as [-> | ->] by lia;
        cbv zeta; rewrite ?Ha1, ?Ha1'; now repeat split.
    + intros k Hk. assert (k = 3%nat) as -> by lia.
      cbv zeta. rewrite Ha2. now repeat split.
    + cbv zeta. rewrite Ha3. now split.
Qed.

(** On a document of two strokes played with [hasty], the tick at the
    erased end fires at 50 ms, while the start timer is still pending: the
    start timer fires second, the change of direction third and the tick
    fourth. *)
Lemma end_of_erase_resumes_forward_witness :
  exists change tick : nat,
    (2 <= change <= 3)%nat /\ (change < tick <= 4)%nat /\
    (forall k, (1 <= k < change)%nat ->
       let q := after_timeouts Abortable hasty k
                  (after_timeouts Abortable hasty 5
                     (demo_player Abortable hasty 2)) in
       step q = 0 /\ direction q = -1 /\
       controller_pending q
       = [ (now (after_timeouts Abortable hasty 1
                   (after_timeouts Abortable hasty 5
                      (demo_player Abortable hasty 2)))
            + Z.max 0 (eraseDelay hasty),
            cb_setDirection 1) ]) /\
    (forall k, (change <= k < tick)%nat ->
       let q := after_timeouts Abortable hasty k
                  (after_timeouts Abortable hasty 5
                     (demo_player Abortable hasty 2)) in
       step q = 0 /\ direction q = 1 /\
       controller_pending q
       = [ (now (after_timeouts Abortable hasty change
                   (after_timeouts Abortable hasty 5
                      (demo_player Abortable hasty 2)))
            + Z.max 0 (duration hasty + delay hasty),
            cb_nextTick 0 1 (total_of (plain_document 2))) ]) /\
    (let q := after_timeouts Abortable hasty tick
                (after_timeouts Abortable hasty 5
                   (demo_player Abortable hasty 2)) in
     direction q = 1 /\
     step q = if 2 <=? total_of (plain_document 2) then 1 else 0) /\
    (forall k,
       step (after_timeouts Abortable hasty k
               (after_timeouts Abortable hasty 5
                  (demo_player Abortable hasty 2))) <> -1).
Proof.
  apply (end_of_erase_resumes_forward Abortable hasty "signature.json"
           (plain_document 2) 0 (demo_player Abortable hasty 2)
           (after_timeouts Abortable hasty 5 (demo_player Abortable hasty 2))
           {| timer_id := 6; due := 50; callback := cb_nextTick 0 (-1) 2 |}
           0 (-1) 2).
  - vm_compute. reflexivity.
  - apply session_after_timeouts, session_here.
  - vm_compute. reflexivity.
  - vm_compute. reflexivity.
  - vm_compute. reflexivity.
  - reflexivity.
Defined.

(** The claim C6 as the specification words it fails for a document of one
    stroke: with the default settings the tick after the erase dwell finds
    [step = 0] at the last stroke and leaves it there. *)
Lemma single_stroke_stays_at_zero :
  loaded Abortable DEFAULT_CONFIG "signature.json" (plain_document 1) 0
  = Some (demo_player Abortable DEFAULT_CONFIG 1) /\
  let p := after_timeouts Abortable DEFAULT_CONFIG 3
             (demo_player Abortable DEFAULT_CONFIG 1) in
  direction p = -1 /\ step p = 0 /\
  callback <$> earliest (queue p) = Some (cb_nextTick 0 (-1) 1) /\
  step (after_timeouts Abortable DEFAULT_CONFIG 3 p) = 0 /\
  ~ end_of_erase_as_specified Abortable DEFAULT_CONFIG p.
Proof.
  split; [vm_compute; reflexivity|].
  intros p. repeat split; try (vm_compute; reflexivity).
  intros (_ & _ & H & _). vm_compute in H. discriminate.
Qed.
